(** * Monte Carlo notebooks: project scheduling and particle transport

    A shallow embedding of the two notebook functions with sequential logic,
    [monte_carlo_schedule] (critical-path analysis) and
    [monte_carlo_radiation_transport] (particle random walk), and the
    properties of them that the specification states.

    The later modules state further properties of these two functions
    ([ScheduleFacts], [TransportFacts]), of the analysis of the sample of
    project durations ([Analysis]), and of the four estimators that reduce a
    batch of draws to one number: [monte_carlo_integration],
    [monte_carlo_hypersphere_volume], [monte_carlo_option_pricing] and
    [monte_carlo_var].

    Modelling conventions.
    - Python floats are modelled by exact numbers: canonical rationals [Qc]
      in the scheduling model (so the definitions compute), real numbers [R]
      extended with [+inf] in the transport model (which needs [ln]).
      Exact numbers do not round, do not overflow and have one zero. The
      statements proved over them are statements about orders, signs and
      tests, which rounding keeps; where rounding or the sign of a zero
      decides what the code returns, module [Binary64] runs the same code
      on doubles.
    - The global generator [np.random] is an explicit stream of draws
      ([nat -> _]) together with a cursor, the index of the next draw; every
      function that draws returns the advanced cursor.
    - Python exceptions are values of [exn]; a computation returns
      [Ok v] or [Raise e].
    - [while True] is run with a bound on the number of iterations, and [None]
      means that the loop is still running when the bound is reached.
    - In the estimators and in the analysis a result of type [option] is
      [None] where numpy has no number to give ([nan]: the mean of an empty
      sample, the square root of a negative number). *)

From Stdlib Require Import List String Bool Arith ZArith Lia.
From Stdlib Require Import Permutation Relations Sorted.
From Stdlib Require Import QArith Qcanon Qround.
From Stdlib Require Import Reals Psatz.
From Corelib Require PrimFloat FloatClass.
Import ListNotations.

(** ** Exceptions and results *)

Inductive exn : Type :=
| KeyError (key : string)
| ValueError
| ZeroDivisionError
| IndexError
| OverflowError.

Inductive result (A : Type) : Type :=
| Ok (a : A)
| Raise (e : exn).

Arguments Ok {A} a.
Arguments Raise {A} e.

Definition bind {A B : Type} (c : result A) (k : A -> result B) : result B :=
  match c with
  | Ok a => k a
  | Raise e => Raise e
  end.

Notation "x <- c ;; k" := (bind c (fun x => k))
  (at level 61, c at next level, right associativity).
Notation "' p <- c ;; k" := (bind c (fun x => let p := x in k))
  (at level 61, p pattern, c at next level, right associativity).

Lemma bind_Ok_inv {A B : Type} (c : result A) (k : A -> result B) (b : B) :
  bind c k = Ok b -> exists a, c = Ok a /\ k a = Ok b.
Proof.
  destruct c as [a|e]; simpl; intros H; [eauto | discriminate].
Qed.

(** ** Project scheduling *)

Module Schedule.

Local Open Scope Qc_scope.

(** Integer literals of the notebook as rationals. *)
Definition qz (n : Z) : Qc := Q2Qc (inject_Z n).

(** The value of one entry of the [tasks] dict:
    [{'predecessors': [...], 'duration': [o, m, p]}]. *)
Record task_info : Type := TaskInfo {
  predecessors : list string;
  duration : Qc * Qc * Qc
}.

(** A dict is kept as its items in insertion order; keys are unique. *)
Definition dict (V : Type) : Type := list (string * V).

Definition keys {V : Type} (d : dict V) : list string := map fst d.
Definition values {V : Type} (d : dict V) : list V := map snd d.

Fixpoint dict_get {V : Type} (d : dict V) (k : string) : option V :=
  match d with
  | [] => None
  | (k', v) :: d' => if String.eqb k' k then Some v else dict_get d' k
  end.

(** [d[k] = v]: an existing key keeps its place, a new key goes last. *)
Fixpoint dict_set {V : Type} (d : dict V) (k : string) (v : V) : dict V :=
  match d with
  | [] => [(k, v)]
  | (k', v') :: d' =>
      if String.eqb k' k then (k', v) :: d' else (k', v') :: dict_set d' k v
  end.

(** [d[k]] as an expression. *)
Definition dict_item {V : Type} (d : dict V) (k : string) : result V :=
  match dict_get d k with
  | Some v => Ok v
  | None => Raise (KeyError k)
  end.

(** [np.random.normal(loc, scale)] given the standard normal draw [z]:
    a negative scale is refused before anything is drawn. *)
Definition normal (loc scale z : Qc) : result Qc :=
  if Qclt_le_dec scale 0 then Raise ValueError else Ok (loc + scale * z).

Definition sample_task_duration (triple : Qc * Qc * Qc) (z : Qc) : result Qc :=
  let '(optimistic, most_likely, pessimistic) := triple in
  let mean := (optimistic + qz 4 * most_likely + pessimistic) / qz 6 in
  let std_dev := (pessimistic - optimistic) / qz 6 in
  normal mean std_dev z.

(** The mean and the standard deviation derived from a triple. *)
Definition pert_mean (triple : Qc * Qc * Qc) : Qc :=
  let '(optimistic, most_likely, pessimistic) := triple in
  (optimistic + qz 4 * most_likely + pessimistic) / qz 6.

Definition pert_std_dev (triple : Qc * Qc * Qc) : Qc :=
  let '(optimistic, _, pessimistic) := triple in
  (pessimistic - optimistic) / qz 6.

(** The builtin [max] over a sequence: the first greatest element. *)
Fixpoint max_from (cur : Qc) (l : list Qc) : Qc :=
  match l with
  | [] => cur
  | x :: l' => max_from (if Qclt_le_dec cur x then x else cur) l'
  end.

Definition py_max (l : list Qc) : result Qc :=
  match l with
  | [] => Raise ValueError
  | x :: l' => Ok (max_from x l')
  end.

(** [task_durations[p] for p in predecessors]: the first missing key raises. *)
Fixpoint items_of (task_durations : dict Qc) (ps : list string)
  : result (list Qc) :=
  match ps with
  | [] => Ok []
  | p :: ps' =>
      v <- dict_item task_durations p ;;
      vs <- items_of task_durations ps' ;;
      Ok (v :: vs)
  end.

(** The [if predecessors: ... else: ...] that sets [start_time]. *)
Definition start_time_of (task_durations : dict Qc) (predecessors : list string)
  : result Qc :=
  match predecessors with
  | [] => Ok 0
  | _ :: _ => vs <- items_of task_durations predecessors ;; py_max vs
  end.

Section Replications.

(** The standard normal draws behind [np.random.normal]. *)
Variable z : nat -> Qc.

(** The inner loop [for task, info in tasks.items()] over the items [ts]
    that remain, from the dict [task_durations] built so far and the
    cursor [i]. *)
Fixpoint schedule_tasks (ts : dict task_info) (task_durations : dict Qc) (i : nat)
  : result (dict Qc * nat) :=
  match ts with
  | [] => Ok (task_durations, i)
  | (task, info) :: ts' =>
      d <- sample_task_duration (duration info) (z i) ;;
      start_time <- start_time_of task_durations (predecessors info) ;;
      let finish_time := start_time + d in
      schedule_tasks ts' (dict_set task_durations task finish_time) (S i)
  end.

(** One pass of the outer loop: the project duration of one replication. *)
Definition replication (tasks : dict task_info) (i : nat) : result (Qc * nat) :=
  '(task_durations, i') <- schedule_tasks tasks [] i ;;
  project_duration <- py_max (values task_durations) ;;
  Ok (project_duration, i').

Fixpoint simulations (tasks : dict task_info) (n : nat)
  (project_durations : list Qc) (i : nat) : result (list Qc) :=
  match n with
  | O => Ok project_durations
  | S n' =>
      '(project_duration, i') <- replication tasks i ;;
      simulations tasks n' (project_durations ++ [project_duration]) i'
  end.

Definition monte_carlo_schedule (tasks : dict task_info) (num_simulations : nat)
  : result (list Qc) :=
  simulations tasks num_simulations [] 0.

End Replications.

(** The task graph of the notebook. *)
Definition notebook_tasks : dict task_info :=
  [ ("Task A"%string, TaskInfo [] (qz 2, qz 4, qz 6));
    ("Task B"%string, TaskInfo ["Task A"%string] (qz 3, qz 5, qz 7));
    ("Task C"%string, TaskInfo ["Task A"%string] (qz 1, qz 2, qz 3));
    ("Task D"%string, TaskInfo ["Task B"%string; "Task C"%string] (qz 2, qz 3, qz 4)) ].


(** *** Dicts *)

Lemma dict_get_In {V : Type} (d : dict V) k v :
  dict_get d k = Some v -> In (k, v) d.
Proof.
  induction d as [|[k' v'] d IH]; simpl; [discriminate|].
  destruct (String.eqb k' k) eqn:E.
  - apply String.eqb_eq in E. intros [= ->]. left. now subst.
  - intros H. right. now apply IH.
Qed.

Lemma dict_get_None {V : Type} (d : dict V) k :
  dict_get d k = None <-> ~ In k (keys d).
Proof.
  induction d as [|[k' v'] d IH]; simpl.
  - tauto.
  - destruct (String.eqb k' k) eqn:E.
    + apply String.eqb_eq in E. split; [discriminate | intros H; elim H; now left].
    + apply String.eqb_neq in E. rewrite IH. tauto.
Qed.

Lemma dict_get_keys {V : Type} (d : dict V) k v :
  dict_get d k = Some v -> In k (keys d).
Proof.
  intros H. apply dict_get_In in H. apply (in_map fst) in H. exact H.
Qed.

Lemma keys_dict_get {V : Type} (d : dict V) k :
  In k (keys d) -> exists v, dict_get d k = Some v.
Proof.
  intros H. destruct (dict_get d k) as [v|] eqn:E; [eauto|].
  apply dict_get_None in E. contradiction.
Qed.

Lemma In_dict_get {V : Type} (d : dict V) k v :
  NoDup (keys d) -> In (k, v) d -> dict_get d k = Some v.
Proof.
  induction d as [|[k' v'] d IH]; simpl; [tauto|].
  intros Hnd [H|H].
  - inversion H; subst. now rewrite String.eqb_refl.
  - inversion Hnd as [|? ? Hnot Hnd']; subst.
    destruct (String.eqb k' k) eqn:E.
    + apply String.eqb_eq in E. subst. elim Hnot.
      apply (in_map fst) in H. exact H.
    + now apply IH.
Qed.

Lemma dict_get_app {V : Type} (d d' : dict V) k :
  dict_get (d ++ d') k =
  match dict_get d k with Some v => Some v | None => dict_get d' k end.
Proof.
  induction d as [|[k' v'] d IH]; simpl; [reflexivity|].
  now destruct (String.eqb k' k).
Qed.

Lemma dict_set_fresh {V : Type} (d : dict V) k v :
  ~ In k (keys d) -> dict_set d k v = d ++ [(k, v)].
Proof.
  induction d as [|[k' v'] d IH]; simpl; [reflexivity|].
  intros H. destruct (String.eqb k' k) eqn:E.
  - apply String.eqb_eq in E. elim H. now left.
  - rewrite IH; [reflexivity | tauto].
Qed.

Lemma keys_app {V : Type} (d d' : dict V) : keys (d ++ d') = keys d ++ keys d'.
Proof. unfold keys. apply map_app. Qed.


(** *** The builtin [max] *)

Definition is_maximum (m : Qc) (l : list Qc) : Prop :=
  In m l /\ forall x, In x l -> x <= m.

Lemma max_from_spec (l : list Qc) (cur : Qc) :
  is_maximum (max_from cur l) (cur :: l).
Proof.
  revert cur. induction l as [|x l IH]; intros cur; simpl.
  - split; [now left | intros y [<-|[]]; apply Qcle_refl].
  - destruct (Qclt_le_dec cur x) as [Hlt|Hle].
    + destruct (IH x) as [Hin Hmax]. split.
      * right. exact Hin.
      * intros y [<-|Hy].
        -- apply Qcle_trans with x; [now apply Qclt_le_weak | apply Hmax; now left].
        -- now apply Hmax.
    + destruct (IH cur) as [Hin Hmax]. split.
      * destruct Hin as [Hin|Hin]; [now left | right; now right].
      * intros y [<-|[<-|Hy]].
        -- apply Hmax. now left.
        -- apply Qcle_trans with cur; [exact Hle | apply Hmax; now left].
        -- apply Hmax. now right.
Qed.

Lemma py_max_Ok (l : list Qc) (m : Qc) : py_max l = Ok m -> is_maximum m l.
Proof.
  destruct l as [|x l]; simpl; [discriminate|].
  intros [= <-]. apply max_from_spec.
Qed.

Lemma py_max_nonempty (l : list Qc) :
  l <> [] -> exists m, py_max l = Ok m.
Proof. destruct l; [congruence | simpl; eauto]. Qed.


(** *** Reading the finish times of predecessors *)

Lemma items_of_Ok td ps vs :
  items_of td ps = Ok vs -> map (dict_get td) ps = map Some vs.
Proof.
  revert vs. induction ps as [|p ps IH]; simpl; intros vs.
  - now intros [= <-].
  - unfold dict_item. destruct (dict_get td p) as [v|]; simpl; [|discriminate].
    destruct (items_of td ps) as [vs'|]; simpl; [|discriminate].
    intros [= <-]. simpl. f_equal. now apply IH.
Qed.

Lemma items_of_ext td td' ps :
  (forall p, In p ps -> dict_get td p = dict_get td' p) ->
  items_of td ps = items_of td' ps.
Proof.
  induction ps as [|p ps IH]; simpl; intros H; [reflexivity|].
  unfold dict_item. rewrite <- (H p) by now left.
  rewrite IH; [reflexivity | intros q Hq; apply H; now right].
Qed.

Lemma start_time_of_ext td td' ps :
  (forall p, In p ps -> dict_get td p = dict_get td' p) ->
  start_time_of td ps = start_time_of td' ps.
Proof.
  intros H. destruct ps as [|p ps]; [reflexivity|].
  unfold start_time_of. now rewrite (items_of_ext td td' (p :: ps) H).
Qed.

Lemma items_of_In td ps vs p :
  items_of td ps = Ok vs -> In p ps ->
  exists v, dict_get td p = Some v /\ In v vs.
Proof.
  revert vs. induction ps as [|q ps IH]; simpl; intros vs H Hin; [tauto|].
  unfold dict_item in H. destruct (dict_get td q) as [v|] eqn:Eq; simpl in H; [|discriminate].
  destruct (items_of td ps) as [vs'|]; simpl in H; [|discriminate].
  injection H as <-. destruct Hin as [->|Hin].
  - exists v. split; [exact Eq | now left].
  - destruct (IH vs' eq_refl Hin) as (w & Hw & Hin'). exists w. split; [exact Hw | now right].
Qed.

Lemma items_of_In_inv td ps vs v :
  items_of td ps = Ok vs -> In v vs ->
  exists p, In p ps /\ dict_get td p = Some v.
Proof.
  revert vs. induction ps as [|q ps IH]; simpl; intros vs H Hin.
  - injection H as <-. destruct Hin.
  - unfold dict_item in H. destruct (dict_get td q) as [w|] eqn:Eq; simpl in H; [|discriminate].
    destruct (items_of td ps) as [vs'|]; simpl in H; [|discriminate].
    injection H as <-. destruct Hin as [<-|Hin].
    + exists q. split; [now left | exact Eq].
    + destruct (IH vs' eq_refl Hin) as (p & Hp & Hget). exists p. split; [now right | exact Hget].
Qed.



(** *** Insertion orders that respect the dependencies *)

Definition known (seen : list string) (p : string) : bool :=
  existsb (String.eqb p) seen.

(** Every task comes after all of its predecessors, given the keys [seen]
    inserted before. This is what the inner loop needs to run through. *)
Fixpoint ordered_from (seen : list string) (ts : dict task_info) : bool :=
  match ts with
  | [] => true
  | (task, info) :: ts' =>
      forallb (known seen) (predecessors info) && ordered_from (seen ++ [task]) ts'
  end.

Definition dependency_ordered (tasks : dict task_info) : bool :=
  ordered_from [] tasks.

(** The data model's condition on a triple that sampling depends on. *)
Definition valid_triple (triple : Qc * Qc * Qc) : Prop :=
  let '(optimistic, _, pessimistic) := triple in optimistic <= pessimistic.

Definition valid_triples (tasks : dict task_info) : Prop :=
  Forall (fun ti => valid_triple (duration (snd ti))) tasks.

Lemma known_In seen p : known seen p = true <-> In p seen.
Proof.
  unfold known. rewrite existsb_exists. split.
  - intros (q & Hq & E). apply String.eqb_eq in E. now subst.
  - intros H. exists p. split; [exact H | apply String.eqb_refl].
Qed.

Lemma qz6_pos : 0 < qz 6.
Proof. reflexivity. Qed.

Lemma qz6_neq : qz 6 <> 0.
Proof. intros H. discriminate H. Qed.

Lemma pert_std_dev_nonneg triple : valid_triple triple -> 0 <= pert_std_dev triple.
Proof.
  destruct triple as [[o m] p]. simpl. intros H.
  apply Qcmult_lt_0_le_reg_r with (qz 6); [exact qz6_pos|].
  rewrite Qcmult_0_l. unfold Qcdiv. rewrite <- Qcmult_assoc.
  rewrite Qcmult_inv_l by exact qz6_neq. rewrite Qcmult_1_r.
  unfold Qcminus. apply -> Qcle_minus_iff. exact H.
Qed.

Lemma sample_task_duration_eq triple x :
  sample_task_duration triple x = normal (pert_mean triple) (pert_std_dev triple) x.
Proof. now destruct triple as [[o m] p]. Qed.

Lemma sample_task_duration_valid triple x :
  valid_triple triple ->
  sample_task_duration triple x = Ok (pert_mean triple + pert_std_dev triple * x).
Proof.
  intros H. rewrite sample_task_duration_eq. unfold normal.
  destruct (Qclt_le_dec (pert_std_dev triple) 0) as [Hlt|Hle]; [|reflexivity].
  elim (Qclt_not_le _ _ Hlt). now apply pert_std_dev_nonneg.
Qed.

Lemma items_of_known td ps :
  forallb (known (keys td)) ps = true -> exists vs, items_of td ps = Ok vs.
Proof.
  induction ps as [|p ps IH]; simpl; [eauto|].
  intros H. apply andb_true_iff in H. destruct H as [Hp Hps].
  apply known_In, keys_dict_get in Hp. destruct Hp as [v Hv].
  destruct (IH Hps) as [vs Hvs].
  unfold dict_item. rewrite Hv. simpl. rewrite Hvs. simpl. eauto.
Qed.

Lemma items_of_length td ps vs :
  items_of td ps = Ok vs -> List.length vs = List.length ps.
Proof.
  intros H. apply items_of_Ok in H.
  apply (f_equal (@List.length _)) in H. now rewrite !length_map in H.
Qed.

Lemma start_time_of_known td ps :
  forallb (known (keys td)) ps = true -> exists st, start_time_of td ps = Ok st.
Proof.
  intros H. destruct ps as [|p ps]; [simpl; eauto|].
  destruct (items_of_known td (p :: ps) H) as [vs Hvs].
  unfold start_time_of. rewrite Hvs. simpl.
  apply py_max_nonempty. intros ->. apply items_of_length in Hvs. discriminate.
Qed.

Lemma items_of_unknown td ps :
  forallb (known (keys td)) ps = false ->
  exists p, In p ps /\ ~ In p (keys td) /\ items_of td ps = Raise (KeyError p).
Proof.
  induction ps as [|p ps IH]; simpl; [discriminate|].
  intros H. apply andb_false_iff in H.
  destruct (known (keys td) p) eqn:Ep.
  - destruct H as [H|H]; [discriminate|].
    destruct (IH H) as (q & Hq & Hnot & Hraise).
    apply known_In, keys_dict_get in Ep. destruct Ep as [v Hv].
    exists q. split; [now right|]. split; [exact Hnot|].
    unfold dict_item. rewrite Hv. simpl. now rewrite Hraise.
  - exists p. split; [now left|].
    assert (Hnot : ~ In p (keys td)).
    { intros Hin. apply known_In in Hin. congruence. }
    split; [exact Hnot|].
    apply dict_get_None in Hnot. unfold dict_item. now rewrite Hnot.
Qed.

Lemma start_time_of_unknown td ps :
  forallb (known (keys td)) ps = false ->
  exists p, In p ps /\ ~ In p (keys td) /\ start_time_of td ps = Raise (KeyError p).
Proof.
  intros H. destruct ps as [|p ps]; [discriminate|].
  destruct (items_of_unknown td (p :: ps) H) as (q & Hq & Hnot & Hraise).
  exists q. split; [exact Hq|]. split; [exact Hnot|].
  unfold start_time_of. now rewrite Hraise.
Qed.

(** *** The inner loop *)

Lemma keys_dict_set td task (v : Qc) :
  ~ In task (keys td) -> keys (dict_set td task v) = keys td ++ [task].
Proof.
  intros H. rewrite dict_set_fresh by exact H. now rewrite keys_app.
Qed.

(** When the loop runs through, it has drawn once per task, keeps what [td]
    held, and holds for every task the finish time [start + duration]. *)
Lemma schedule_tasks_Ok z ts : forall td i td' i',
  schedule_tasks z ts td i = Ok (td', i') ->
  NoDup (keys td ++ keys ts) ->
  i' = (i + List.length ts)%nat /\
  keys td' = keys td ++ keys ts /\
  (forall k v, dict_get td k = Some v -> dict_get td' k = Some v) /\
  (forall j task info, nth_error ts j = Some (task, info) ->
     exists d st,
       sample_task_duration (duration info) (z (i + j)%nat) = Ok d /\
       start_time_of td' (predecessors info) = Ok st /\
       dict_get td' task = Some (st + d)).
Proof.
  induction ts as [|[task info] ts IH]; intros td i td' i' H Hnd.
  - simpl in H. injection H as <- <-. simpl. rewrite app_nil_r.
    repeat split; [lia | auto |].
    intros [|j] ? ? Hj; discriminate Hj.
  - simpl in H.
    apply bind_Ok_inv in H. destruct H as (d & Hd & H).
    apply bind_Ok_inv in H. destruct H as (st & Hst & H).
    assert (Hfresh : ~ In task (keys td)).
    { intros Hin. simpl in Hnd. apply NoDup_remove_2 in Hnd. apply Hnd.
      apply in_or_app. now left. }
    assert (Hnd' : NoDup (keys (dict_set td task (st + d)) ++ keys ts)).
    { rewrite keys_dict_set by exact Hfresh. rewrite <- app_assoc. exact Hnd. }
    destruct (IH _ _ _ _ H Hnd') as (Hi & Hk & Hext & Hfin).
    rewrite keys_dict_set in Hk by exact Hfresh.
    assert (Hext0 : forall k v, dict_get td k = Some v -> dict_get td' k = Some v).
    { intros k v Hkv. apply Hext. rewrite dict_set_fresh by exact Hfresh.
      rewrite dict_get_app, Hkv. reflexivity. }
    repeat split.
    + simpl. lia.
    + rewrite Hk, <- app_assoc. reflexivity.
    + exact Hext0.
    + intros [|j] task' info' Hj; simpl in Hj.
      * injection Hj as <- <-. exists d, st. rewrite Nat.add_0_r.
        split; [exact Hd|]. split.
        -- rewrite <- Hst. symmetry. apply start_time_of_ext.
           intros p Hp. destruct (dict_get td p) as [v|] eqn:Ep.
           ++ symmetry. now apply Hext0.
           ++ exfalso. destruct (predecessors info) as [|q qs] eqn:Eps; [destruct Hp|].
              simpl in Hst. apply bind_Ok_inv in Hst. destruct Hst as (vs & Hvs & _).
              destruct (items_of_In td (q :: qs) vs p Hvs Hp) as (v & Hv & _). congruence.
        -- apply Hext. rewrite dict_set_fresh by exact Hfresh.
           rewrite dict_get_app.
           apply dict_get_None in Hfresh. rewrite Hfresh. simpl.
           now rewrite String.eqb_refl.
      * destruct (Hfin j task' info' Hj) as (d' & st' & Hd' & Hst' & Hget).
        exists d', st'. replace (i + S j)%nat with (S i + j)%nat by lia. auto.
Qed.

(** The loop runs through exactly on the orders that respect the
    dependencies (and triples that can be sampled). *)
Lemma schedule_tasks_ordered z ts : forall td i,
  valid_triples ts -> ordered_from (keys td) ts = true ->
  NoDup (keys td ++ keys ts) ->
  exists td', schedule_tasks z ts td i = Ok (td', (i + List.length ts)%nat).
Proof.
  induction ts as [|[task info] ts IH]; intros td i Hv Hord Hnd; simpl.
  - exists td. now rewrite Nat.add_0_r.
  - inversion Hv as [|? ? Hv1 Hv2]; subst. simpl in Hv1.
    simpl in Hord. apply andb_true_iff in Hord. destruct Hord as [Hps Hord].
    rewrite sample_task_duration_valid by exact Hv1. simpl.
    destruct (start_time_of_known td _ Hps) as [st Hst]. rewrite Hst. simpl.
    assert (Hfresh : ~ In task (keys td)).
    { intros Hin. simpl in Hnd. apply NoDup_remove_2 in Hnd. apply Hnd.
      apply in_or_app. now left. }
    destruct (IH (dict_set td task
                    (st + (pert_mean (duration info) +
                           pert_std_dev (duration info) * z i))) (S i) Hv2)
      as [td' Htd'].
    + rewrite keys_dict_set by exact Hfresh. exact Hord.
    + rewrite keys_dict_set by exact Hfresh. rewrite <- app_assoc. exact Hnd.
    + exists td'. rewrite Htd'. f_equal. f_equal. lia.
Qed.


Lemma ordered_from_nth ts : forall seen j task info p,
  ordered_from seen ts = true ->
  nth_error ts j = Some (task, info) -> In p (predecessors info) ->
  In p seen \/
  exists j' info', (j' < j)%nat /\ nth_error ts j' = Some (p, info').
Proof.
  induction ts as [|[t0 i0] ts IH]; intros seen j task info p Hord Hj Hp.
  - destruct j; discriminate Hj.
  - simpl in Hord. apply andb_true_iff in Hord. destruct Hord as [Hps Hord].
    destruct j as [|j]; simpl in Hj.
    + injection Hj as <- <-. left.
      rewrite forallb_forall in Hps. apply known_In. now apply Hps.
    + destruct (IH _ _ _ _ _ Hord Hj Hp) as [Hin|(j' & info' & Hlt & Hj')].
      * apply in_app_or in Hin. destruct Hin as [Hin|[<-|[]]]; [now left|].
        right. exists 0%nat, i0. split; [lia | reflexivity].
      * right. exists (S j'), info'. split; [lia | exact Hj'].
Qed.

(** *** One replication *)

Lemma replication_ordered z tasks i :
  NoDup (keys tasks) -> tasks <> [] -> valid_triples tasks ->
  dependency_ordered tasks = true ->
  exists pd, replication z tasks i = Ok (pd, (i + List.length tasks)%nat).
Proof.
  intros Hnd Hne Hv Hord.
  destruct (schedule_tasks_ordered z tasks [] i Hv Hord Hnd) as [td Htd].
  destruct (schedule_tasks_Ok _ _ _ _ _ _ Htd Hnd) as (_ & Hk & _).
  simpl in Hk.
  destruct (py_max_nonempty (values td)) as [pd Hpd].
  { intros E. destruct td; [|discriminate E]. simpl in Hk.
    destruct tasks; [now apply Hne | discriminate Hk]. }
  exists pd. unfold replication. rewrite Htd. simpl. rewrite Hpd. reflexivity.
Qed.

Lemma replication_Ok z tasks i pd i' :
  NoDup (keys tasks) ->
  replication z tasks i = Ok (pd, i') ->
  exists td,
    schedule_tasks z tasks [] i = Ok (td, i') /\
    keys td = keys tasks /\
    (forall j task info, nth_error tasks j = Some (task, info) ->
       exists d st,
         sample_task_duration (duration info) (z (i + j)%nat) = Ok d /\
         start_time_of td (predecessors info) = Ok st /\
         dict_get td task = Some (st + d)) /\
    py_max (values td) = Ok pd.
Proof.
  intros Hnd H. unfold replication in H.
  apply bind_Ok_inv in H. destruct H as ([td i1] & Htd & H).
  apply bind_Ok_inv in H. destruct H as (pd1 & Hpd & H).
  injection H as -> ->.
  destruct (schedule_tasks_Ok _ _ _ _ _ _ Htd Hnd) as (_ & Hk & _ & Hfin).
  exists td. auto.
Qed.



Lemma In_keys_nth_error {V : Type} (d : dict V) k :
  In k (keys d) -> exists j v, nth_error d j = Some (k, v).
Proof.
  intros H. unfold keys in H. apply in_map_iff in H.
  destruct H as ([k' v] & Hk & Hin). simpl in Hk. subst k'.
  apply In_nth_error in Hin. destruct Hin as [j Hj]. eauto.
Qed.

(** *** Examples used below *)

Definition zero_draws : nat -> Qc := fun _ => 0.

(** The draws 0, 1, 2, 3, ... *)
Definition counting_draws : nat -> Qc := fun i => qz (Z.of_nat i).



(** Two tasks, B after A, in both insertion orders. *)
Definition a_then_b : dict task_info :=
  [ ("A"%string, TaskInfo [] (qz 2, qz 2, qz 2));
    ("B"%string, TaskInfo ["A"%string] (qz 3, qz 3, qz 3)) ].

Definition b_then_a : dict task_info :=
  [ ("B"%string, TaskInfo ["A"%string] (qz 3, qz 3, qz 3));
    ("A"%string, TaskInfo [] (qz 2, qz 2, qz 2)) ].



Ltac nodup_keys :=
  repeat (constructor; [simpl; intuition discriminate|]); constructor.


(** Equality of computed results that hold rationals. *)
Ltac qc_results :=
  vm_compute; repeat f_equal; apply Qc_is_canon; reflexivity.

(** *** Statements of the specification about scheduling *)






(** *** Paths of the graph *)

Definition most_likely (info : task_info) : Qc :=
  let '(_, m, _) := duration info in m.


(** [chain tasks c t]: [c] is a path of the graph that starts at a task
    without predecessors, follows the dependencies and ends at [t]. *)
Inductive chain (tasks : dict task_info) : list string -> string -> Prop :=
| chain_source t info :
    In (t, info) tasks -> predecessors info = [] -> chain tasks [t] t
| chain_step c p t info :
    chain tasks c p -> In (t, info) tasks -> In p (predecessors info) ->
    chain tasks (c ++ [t]) t.



(** *** Cycles and unknown predecessors *)









(** *** More statements of the specification about scheduling *)





(** *** The draws a replication uses *)

Lemma schedule_tasks_cursor z ts : forall td i td' i',
  schedule_tasks z ts td i = Ok (td', i') -> i' = (i + List.length ts)%nat.
Proof.
  induction ts as [|[task info] ts IH]; intros td i td' i' H; simpl in H.
  - injection H as _ <-. simpl. lia.
  - apply bind_Ok_inv in H. destruct H as (d & _ & H).
    apply bind_Ok_inv in H. destruct H as (st & _ & H).
    apply IH in H. simpl. lia.
Qed.

Lemma replication_cursor z tasks i pd i' :
  replication z tasks i = Ok (pd, i') -> i' = (i + List.length tasks)%nat.
Proof.
  unfold replication. intros H.
  apply bind_Ok_inv in H. destruct H as ([td i1] & Htd & H).
  apply bind_Ok_inv in H. destruct H as (pd1 & _ & H). injection H as _ <-.
  now apply schedule_tasks_cursor in Htd.
Qed.

End Schedule.

(** ** Particle transport *)

Module Transport.

Local Open Scope R_scope.

(** Positions and distances: a real number or [+inf], which is what
    [-np.log(0.0)] evaluates to. *)
Inductive dist : Type :=
| Fin (x : R)
| Inf.

Definition dist_add (a b : dist) : dist :=
  match a, b with
  | Fin x, Fin y => Fin (x + y)
  | _, _ => Inf
  end.

Definition dist_le (a b : dist) : Prop :=
  match a, b with
  | Fin x, Fin y => x <= y
  | _, Inf => True
  | Inf, Fin _ => False
  end.

Definition dist_lt (a b : dist) : Prop :=
  match a, b with
  | Fin x, Fin y => x < y
  | Fin _, Inf => True
  | Inf, _ => False
  end.

Definition dist_le_dec (a b : dist) : {dist_le a b} + {~ dist_le a b}.
Proof.
  destruct a as [x|], b as [y|]; simpl.
  - apply Rle_dec.
  - left. exact I.
  - right. intros [].
  - left. exact I.
Defined.

(** [-np.log(u)] for a draw [u] of [np.random.rand()], which lies in [0, 1). *)
Definition neg_log (u : R) : dist :=
  if Req_dec_T u 0 then Inf else Fin (- ln u).

(** The state of a particle after an iteration of the loop: in flight
    ([continue]), absorbed ([break]) or transmitted ([append] and [break]). *)
Inductive status : Type :=
| InFlight
| Absorbed
| Transmitted.

Section Walk.

(** The uniform draws behind [np.random.rand()]. *)
Variable u : nat -> R.

Variables absorption_prob scattering_prob : R.
Variable max_distance : dist.

(** One iteration of [while True], from the position and the cursor. *)
Definition loop_body (position : dist) (i : nat) : status * dist * nat :=
  let step := neg_log (u i) in
  let position := dist_add position step in
  if dist_le_dec max_distance position then
    (Transmitted, position, S i)
  else
    let rand := u (S i) in
    if Rlt_dec rand absorption_prob then
      (Absorbed, position, S (S i))
    else if Rlt_dec rand (absorption_prob + scattering_prob) then
      (InFlight, position, S (S i))
    else
      (InFlight, position, S (S i)).

(** The loop, for at most [fuel] iterations; [None] when it is still
    running after them. *)
Fixpoint walk (fuel : nat) (position : dist) (i : nat)
  : option (status * dist * nat) :=
  match fuel with
  | O => None
  | S fuel' =>
      match loop_body position i with
      | (InFlight, position', i') => walk fuel' position' i'
      | terminal => Some terminal
      end
  end.

(** The states after each iteration of the same loop. *)
Fixpoint walk_trace (fuel : nat) (position : dist) (i : nat)
  : list (status * dist) :=
  match fuel with
  | O => []
  | S fuel' =>
      match loop_body position i with
      | (InFlight, position', i') =>
          (InFlight, position') :: walk_trace fuel' position' i'
      | (terminal, position', _) => [(terminal, position')]
      end
  end.

(** [for _ in range(num_particles)], every walk within [fuel] iterations. *)
Fixpoint particles (fuel n : nat) (transmissions : list dist) (i : nat)
  : option (list dist * nat) :=
  match n with
  | O => Some (transmissions, i)
  | S n' =>
      match walk fuel (Fin 0) i with
      | None => None
      | Some (Transmitted, position, i') =>
          particles fuel n' (transmissions ++ [position]) i'
      | Some (_, _, i') => particles fuel n' transmissions i'
      end
  end.

End Walk.

(** [a / b] on integers. *)
Definition true_div (a b : nat) : result R :=
  match b with
  | O => Raise ZeroDivisionError
  | S _ => Ok (INR a / INR b)
  end.

Definition monte_carlo_radiation_transport (u : nat -> R) (fuel : nat)
  (num_particles : nat) (absorption_prob scattering_prob : R)
  (max_distance : dist) : option (result R) :=
  match particles u absorption_prob scattering_prob max_distance
          fuel num_particles [] 0 with
  | None => None
  | Some (transmissions, _) =>
      Some (true_div (List.length transmissions) num_particles)
  end.

(** Draws as [np.random.rand()] returns them. *)
Definition unit_draws (u : nat -> R) : Prop := forall k, 0 <= u k < 1.

(** *** Steps *)

Lemma neg_log_positive x : 0 <= x < 1 -> dist_lt (Fin 0) (neg_log x).
Proof.
  intros [H0 H1]. unfold neg_log. destruct (Req_dec_T x 0) as [E|E]; simpl.
  - exact I.
  - assert (Hx : 0 < x) by lra.
    pose proof (ln_increasing x 1 Hx H1) as H. rewrite ln_1 in H. lra.
Qed.

Lemma dist_add_increases x s :
  dist_lt (Fin 0) s -> dist_lt (Fin x) (dist_add (Fin x) s).
Proof. destruct s as [y|]; simpl; [lra | trivial]. Qed.

Lemma dist_lt_le a b : dist_lt a b -> dist_le a b.
Proof. destruct a, b; simpl; try tauto; lra. Qed.

Lemma dist_le_lt_trans a b c : dist_le a b -> dist_lt b c -> dist_lt a c.
Proof. destruct a, b, c; simpl; try tauto; lra. Qed.

Lemma not_dist_le_Fin md p : ~ dist_le md p -> exists x, p = Fin x.
Proof.
  destruct p as [x|]; [eauto|]. intros H. elim H. destruct md; exact I.
Qed.

(** What an iteration returns: the position moved by the step, the status
    decided by the two tests, and one or two draws used. *)
Lemma loop_body_cases u a s md position i :
  let position' := dist_add position (neg_log (u i)) in
  (dist_le md position' /\
   loop_body u a s md position i = (Transmitted, position', S i)) \/
  (~ dist_le md position' /\ u (S i) < a /\
   loop_body u a s md position i = (Absorbed, position', S (S i))) \/
  (~ dist_le md position' /\ ~ u (S i) < a /\
   loop_body u a s md position i = (InFlight, position', S (S i))).
Proof.
  unfold loop_body. simpl.
  destruct (dist_le_dec md (dist_add position (neg_log (u i)))) as [H|H]; [now left|].
  right. destruct (Rlt_dec (u (S i)) a) as [Ha|Ha]; [now left|].
  right. now destruct (Rlt_dec (u (S i)) (a + s)).
Qed.

Section WalkFacts.

Variable u : nat -> R.
Variables a s : R.
Variable md : dist.

Lemma walk_S fuel position i :
  walk u a s md (S fuel) position i =
  match loop_body u a s md position i with
  | (InFlight, position', i') => walk u a s md fuel position' i'
  | terminal => Some terminal
  end.
Proof. reflexivity. Qed.

Lemma walk_trace_S fuel position i :
  walk_trace u a s md (S fuel) position i =
  match loop_body u a s md position i with
  | (InFlight, position', i') =>
      (InFlight, position') :: walk_trace u a s md fuel position' i'
  | (terminal, position', _) => [(terminal, position')]
  end.
Proof. reflexivity. Qed.

(** The cursor moves by one or two draws per iteration. *)
Lemma loop_body_cursor position i st p i' :
  loop_body u a s md position i = (st, p, i') -> (i < i' <= i + 2)%nat.
Proof.
  destruct (loop_body_cases u a s md position i) as [[_ E]|[(_ & _ & E)|(_ & _ & E)]];
    rewrite E; intros [= _ _ <-]; lia.
Qed.

Lemma walk_cursor fuel : forall position i st p i',
  walk u a s md fuel position i = Some (st, p, i') ->
  (i < i' <= i + 2 * fuel)%nat.
Proof.
  induction fuel as [|fuel IH]; intros position i st p i' H; [discriminate|].
  rewrite walk_S in H.
  destruct (loop_body u a s md position i) as [[st1 p1] i1] eqn:E.
  apply loop_body_cursor in E.
  destruct st1.
  - apply IH in H. lia.
  - injection H as _ _ <-. lia.
  - injection H as _ _ <-. lia.
Qed.

(** The walk and its trace are the same loop. *)
Lemma walk_trace_last fuel : forall position i st p i',
  walk u a s md fuel position i = Some (st, p, i') ->
  exists tr,
    walk_trace u a s md fuel position i = tr ++ [(st, p)] /\
    Forall (fun sp => fst sp = InFlight) tr.
Proof.
  induction fuel as [|fuel IH]; intros position i st p i' H; [discriminate|].
  rewrite walk_S in H. rewrite walk_trace_S.
  destruct (loop_body u a s md position i) as [[[| |] p1] i1].
  - destruct (IH _ _ _ _ _ H) as (tr & Htr & Hall).
    exists ((InFlight, p1) :: tr). split; [now rewrite Htr | now constructor].
  - injection H as <- <- _. exists []. split; [reflexivity | constructor].
  - injection H as <- <- _. exists []. split; [reflexivity | constructor].
Qed.

Hypothesis draws : unit_draws u.

(** With exact sums every iteration moves the particle strictly forward. *)
Lemma loop_body_increases x i st p i' :
  loop_body u a s md (Fin x) i = (st, p, i') ->
  dist_lt (Fin x) p /\ (st = InFlight -> exists x', p = Fin x').
Proof.
  assert (Hstep : dist_lt (Fin x) (dist_add (Fin x) (neg_log (u i)))).
  { apply dist_add_increases, neg_log_positive, draws. }
  destruct (loop_body_cases u a s md (Fin x) i) as [[_ E]|[(_ & _ & E)|(Hmd & _ & E)]];
    rewrite E; intros [= <- <- _]; (split; [exact Hstep|]); try discriminate.
  intros _. now apply not_dist_le_Fin with md.
Qed.

Lemma walk_trace_sorted fuel : forall x i,
  Sorted dist_lt (Fin x :: map snd (walk_trace u a s md fuel (Fin x) i)).
Proof.
  induction fuel as [|fuel IH]; intros x i.
  - simpl. repeat constructor.
  - rewrite walk_trace_S.
    destruct (loop_body u a s md (Fin x) i) as [[st p] i1] eqn:E.
    destruct (loop_body_increases x i st p i1 E) as [Hlt Hfin].
    destruct st.
    + destruct (Hfin eq_refl) as [x' ->]. simpl.
      constructor; [apply IH | now constructor].
    + simpl. repeat constructor. exact Hlt.
    + simpl. repeat constructor. exact Hlt.
Qed.

Lemma walk_trace_nonneg fuel : forall x i,
  0 <= x ->
  Forall (dist_le (Fin 0)) (map snd (walk_trace u a s md fuel (Fin x) i)).
Proof.
  induction fuel as [|fuel IH]; intros x i Hx.
  - constructor.
  - rewrite walk_trace_S.
    destruct (loop_body u a s md (Fin x) i) as [[st p] i1] eqn:E.
    destruct (loop_body_increases x i st p i1 E) as [Hlt Hfin].
    assert (Hp : dist_le (Fin 0) p).
    { apply dist_lt_le, dist_le_lt_trans with (Fin x); [exact Hx | exact Hlt]. }
    destruct st.
    + destruct (Hfin eq_refl) as [x' ->]. simpl. constructor; [exact Hp|].
      apply IH. simpl in Hp. exact Hp.
    + simpl. repeat constructor. exact Hp.
    + simpl. repeat constructor. exact Hp.
Qed.

End WalkFacts.

Lemma particles_S u a s md fuel n acc i :
  particles u a s md fuel (S n) acc i =
  match walk u a s md fuel (Fin 0) i with
  | None => None
  | Some (Transmitted, position, i') =>
      particles u a s md fuel n (acc ++ [position]) i'
  | Some (_, _, i') => particles u a s md fuel n acc i'
  end.
Proof. reflexivity. Qed.

(** The sum [absorption_prob + scattering_prob] is read by one test whose
    two outcomes are the same. *)
Lemma loop_body_scattering u a s s' md position i :
  loop_body u a s md position i = loop_body u a s' md position i.
Proof.
  unfold loop_body.
  destruct (dist_le_dec md (dist_add position (neg_log (u i)))); [reflexivity|].
  destruct (Rlt_dec (u (S i)) a); [reflexivity|].
  destruct (Rlt_dec (u (S i)) (a + s)), (Rlt_dec (u (S i)) (a + s')); reflexivity.
Qed.

Lemma walk_scattering u a s s' md fuel : forall position i,
  walk u a s md fuel position i = walk u a s' md fuel position i.
Proof.
  induction fuel as [|fuel IH]; intros position i; [reflexivity|].
  rewrite !walk_S, (loop_body_scattering u a s s' md).
  destruct (loop_body u a s' md position i) as [[[| |] p1] i1]; auto.
Qed.

Lemma particles_scattering u a s s' md fuel n : forall acc i,
  particles u a s md fuel n acc i = particles u a s' md fuel n acc i.
Proof.
  induction n as [|n IH]; intros acc i; simpl; [reflexivity|].
  rewrite (walk_scattering u a s s' md).
  destruct (walk u a s' md fuel (Fin 0) i) as [[[[| |] p1] i1]|]; auto.
Qed.

(** At most one transmission is recorded per particle. *)
Lemma particles_length u a s md fuel n : forall acc i tr i',
  particles u a s md fuel n acc i = Some (tr, i') ->
  (List.length acc <= List.length tr <= List.length acc + n)%nat.
Proof.
  induction n as [|n IH]; intros acc i tr i' H; simpl in H.
  - injection H as <- _. lia.
  - destruct (walk u a s md fuel (Fin 0) i) as [[[[| |] p1] i1]|]; try discriminate;
      apply IH in H; try rewrite length_app in H; simpl in H; lia.
Qed.

Lemma true_div_range k n :
  (0 < n)%nat -> (k <= n)%nat ->
  exists rate, true_div k n = Ok rate /\ 0 <= rate <= 1.
Proof.
  intros Hn Hk. destruct n as [|n]; [lia|].
  exists (INR k / INR (S n)). split; [reflexivity|].
  assert (H0 : 0 < INR (S n)) by (apply lt_0_INR; lia).
  assert (H1 : 0 <= INR k) by apply pos_INR.
  assert (H2 : INR k <= INR (S n)) by now apply le_INR.
  split.
  - apply Rmult_le_pos; [exact H1 | left; now apply Rinv_0_lt_compat].
  - apply Rmult_le_reg_r with (INR (S n)); [exact H0|].
    unfold Rdiv. rewrite Rmult_assoc, Rinv_l by lra. lra.
Qed.

(** *** Examples used below *)

(** Every draw is 1/2, so every step is [ln 2]. *)
Definition half_draws : nat -> R := fun _ => 1 / 2.

Lemma half_draws_unit : unit_draws half_draws.
Proof. intros k. unfold half_draws. lra. Qed.

Lemma neg_log_half : neg_log (1 / 2) = Fin (ln 2).
Proof.
  unfold neg_log. destruct (Req_dec_T (1 / 2) 0) as [E|_]; [lra|].
  f_equal. replace (1 / 2) with (/ 2) by lra. rewrite ln_Rinv by lra. lra.
Qed.

Lemma ln_2_lt_10 : ln 2 < 10.
Proof.
  apply Rlt_trans with 2; [|lra].
  apply exp_lt_inv. rewrite exp_ln by lra.
  pose proof (exp_ineq1 2). lra.
Qed.

(** With every draw 1/2 and absorption probability 6/10, a particle in a
    medium of depth 10 is absorbed at its first interaction. *)
Lemma walk_half_absorbed s fuel i :
  walk half_draws (6 / 10) s (Fin 10) (S fuel) (Fin 0) i =
  Some (Absorbed, Fin (0 + ln 2), S (S i)).
Proof.
  rewrite walk_S.
  destruct (loop_body_cases half_draws (6 / 10) s (Fin 10) (Fin 0) i)
    as [[H _]|[(_ & _ & E)|(_ & H & _)]].
  - unfold half_draws in H. rewrite neg_log_half in H. simpl in H.
    pose proof ln_2_lt_10. lra.
  - rewrite E. unfold half_draws. now rewrite neg_log_half.
  - unfold half_draws in H. lra.
Qed.

(** With every draw 1/2, no absorption and no far side, a particle is in
    flight after any number of iterations. *)
Lemma walk_half_forever s fuel : forall x i,
  walk half_draws 0 s Inf fuel (Fin x) i = None.
Proof.
  induction fuel as [|fuel IH]; intros x i; [reflexivity|].
  rewrite walk_S.
  destruct (loop_body_cases half_draws 0 s Inf (Fin x) i)
    as [[H _]|[(_ & H & _)|(_ & _ & E)]].
  - unfold half_draws in H. rewrite neg_log_half in H. destruct H.
  - unfold half_draws in H. lra.
  - rewrite E. unfold half_draws. rewrite neg_log_half. apply IH.
Qed.

Lemma transport_half_absorbed s :
  monte_carlo_radiation_transport half_draws 1 1 (6 / 10) s (Fin 10) = Some (Ok 0).
Proof.
  unfold monte_carlo_radiation_transport.
  rewrite particles_S, walk_half_absorbed. simpl. do 2 f_equal. lra.
Qed.

(** *** A medium of depth 0 *)

Lemma walk_depth_zero u a s fuel i :
  unit_draws u ->
  walk u a s (Fin 0) (S fuel) (Fin 0) i =
  Some (Transmitted, dist_add (Fin 0) (neg_log (u i)), S i).
Proof.
  intros Hu. rewrite walk_S.
  assert (Hle : dist_le (Fin 0) (dist_add (Fin 0) (neg_log (u i)))).
  { apply dist_lt_le, dist_add_increases, neg_log_positive, Hu. }
  destruct (loop_body_cases u a s (Fin 0) (Fin 0) i)
    as [[_ E]|[(H & _)|(H & _)]]; try contradiction.
  now rewrite E.
Qed.

Lemma particles_depth_zero u a s fuel n : forall acc i,
  unit_draws u ->
  particles u a s (Fin 0) (S fuel) n acc i =
  Some (acc ++ map (fun k => dist_add (Fin 0) (neg_log (u k))) (seq i n),
        (i + n)%nat).
Proof.
  induction n as [|n IH]; intros acc i Hu.
  - simpl. now rewrite app_nil_r, Nat.add_0_r.
  - rewrite particles_S, walk_depth_zero by exact Hu.
    rewrite IH by exact Hu. simpl. rewrite <- app_assoc. simpl.
    do 2 f_equal. lia.
Qed.

(** *** Statements of the specification about transport *)

(** C3, as the code has it. No pair of probabilities is refused: the run
    is the same whatever [scattering_prob] is, whether or not the sum with
    [absorption_prob] exceeds 1, and with at least one particle a run that
    ends returns a rate and raises nothing. *)
Theorem probabilities_not_validated u fuel n a s s' md :
  monte_carlo_radiation_transport u fuel n a s md =
  monte_carlo_radiation_transport u fuel n a s' md /\
  ((0 < n)%nat -> forall res,
     monte_carlo_radiation_transport u fuel n a s md = Some res ->
     exists rate, res = Ok rate).
Proof.
  split.
  - unfold monte_carlo_radiation_transport.
    now rewrite (particles_scattering u a s s' md).
  - intros Hn res H. unfold monte_carlo_radiation_transport in H.
    destruct (particles u a s md fuel n [] 0) as [[tr i']|] eqn:E; [|discriminate].
    injection H as <-. apply particles_length in E. simpl in E.
    destruct (true_div_range (List.length tr) n Hn) as (rate & Hrate & _); [lia|].
    eauto.
Qed.

Lemma probabilities_not_validated_witness :
  (0 < 1)%nat /\
  monte_carlo_radiation_transport half_draws 1 1 (6 / 10) (7 / 10) (Fin 10) =
  monte_carlo_radiation_transport half_draws 1 1 (6 / 10) (4 / 10) (Fin 10) /\
  forall res,
    monte_carlo_radiation_transport half_draws 1 1 (6 / 10) (7 / 10) (Fin 10) = Some res ->
    exists rate, res = Ok rate.
Proof.
  split; [lia|].
  destruct (probabilities_not_validated half_draws 1 1 (6 / 10) (7 / 10) (4 / 10) (Fin 10))
    as [H1 H2].
  split; [exact H1 | apply H2; lia].
Defined.

(** The claim C3 fails as stated: with [absorption_prob + scattering_prob]
    above 1 the run is not refused, it simulates its particle and returns. *)
Lemma invalid_probabilities_accepted :
  6 / 10 + 7 / 10 > 1 /\
  monte_carlo_radiation_transport half_draws 1 1 (6 / 10) (7 / 10) (Fin 10) =
  Some (Ok 0).
Proof.
  split; [lra | apply transport_half_absorbed].
Qed.

(** Where neither exit of the loop can be taken the loop goes on: no draw
    is 0, so every step and every position is finite and stays short of a
    far side at infinity, and no draw is below [absorption_prob]. *)
Lemma walk_without_exit u a s fuel :
  (forall k, 0 < u k < 1) -> a <= 0 ->
  forall x i, walk u a s Inf fuel (Fin x) i = None.
Proof.
  intros Hu Ha. induction fuel as [|fuel IH]; intros x i; [reflexivity|].
  rewrite walk_S.
  assert (Hstep : neg_log (u i) = Fin (- ln (u i))).
  { unfold neg_log. destruct (Req_dec_T (u i) 0) as [E|_]; [|reflexivity].
    pose proof (Hu i). lra. }
  destruct (loop_body_cases u a s Inf (Fin x) i)
    as [[H _]|[(_ & H & _)|(_ & _ & E)]].
  - rewrite Hstep in H. destruct H.
  - pose proof (Hu (S i)). lra.
  - rewrite E, Hstep. apply IH.
Qed.

(** C4, as the code has it. The loop has no iteration cap and no error of
    its own. Where neither of its two exits can be taken, the far side
    being at infinity, nothing being absorbed and every draw lying strictly
    between 0 and 1, a walk is still in flight after every number of
    iterations, and a run with at least one particle never returns. *)
Theorem walk_has_no_cap u a s fuel n :
  (forall k, 0 < u k < 1) -> a <= 0 ->
  (forall i, walk u a s Inf fuel (Fin 0) i = None) /\
  ((0 < n)%nat -> monte_carlo_radiation_transport u fuel n a s Inf = None).
Proof.
  intros Hu Ha. split.
  - intros i. now apply walk_without_exit.
  - intros Hn. unfold monte_carlo_radiation_transport.
    destruct n as [|n]; [lia|].
    rewrite particles_S. now rewrite walk_without_exit.
Qed.

Lemma walk_has_no_cap_witness :
  (forall i, walk half_draws 0 1 Inf 1000 (Fin 0) i = None) /\
  ((0 < 3)%nat -> monte_carlo_radiation_transport half_draws 1000 3 0 1 Inf = None).
Proof.
  apply (walk_has_no_cap half_draws 0 1 1000 3).
  - intros k. unfold half_draws. lra.
  - lra.
Defined.

(** The claim C4 fails as stated: no number of iterations bounds every
    walk. Without absorption and without a far side the particle is in
    flight after any number of iterations, and nothing is raised. *)
Lemma walk_is_not_capped :
  ~ exists cap : nat,
      forall u a s md, unit_draws u ->
        exists fuel, (fuel <= cap)%nat /\ walk u a s md fuel (Fin 0) 0 <> None.
Proof.
  intros [cap H].
  destruct (H half_draws 0 1 Inf half_draws_unit) as (fuel & _ & Hend).
  apply Hend. apply walk_half_forever.
Qed.

(** C7. With no absorption, no scattering and a medium of depth 0, every
    particle is transmitted at the first test of its first iteration, the
    first step being positive, and the transmission rate of a run with at
    least one particle is exactly 1. *)
Theorem zero_depth_transmits_all u fuel n :
  unit_draws u -> (0 < fuel)%nat -> (0 < n)%nat ->
  (forall i, exists p,
     dist_lt (Fin 0) p /\
     walk u 0 0 (Fin 0) 1 (Fin 0) i = Some (Transmitted, p, S i)) /\
  monte_carlo_radiation_transport u fuel n 0 0 (Fin 0) = Some (Ok 1).
Proof.
  intros Hu Hfuel Hn. split.
  - intros i. exists (dist_add (Fin 0) (neg_log (u i))). split.
    + apply dist_add_increases, neg_log_positive, Hu.
    + now apply walk_depth_zero.
  - destruct fuel as [|fuel]; [lia|].
    unfold monte_carlo_radiation_transport.
    rewrite particles_depth_zero by exact Hu.
    simpl List.length. rewrite length_map, length_seq.
    destruct n as [|n]; [lia|]. unfold true_div. do 2 f_equal.
    assert (H0 : 0 < INR (S n)) by (apply lt_0_INR; lia).
    unfold Rdiv. apply Rinv_r. lra.
Qed.

Lemma zero_depth_transmits_all_witness :
  unit_draws half_draws /\
  monte_carlo_radiation_transport half_draws 1 3 0 0 (Fin 0) = Some (Ok 1).
Proof.
  split; [exact half_draws_unit|].
  apply (zero_depth_transmits_all half_draws 1 3).
  - exact half_draws_unit.
  - lia.
  - lia.
Defined.

Lemma sorted_lt_le l : Sorted dist_lt l -> Sorted dist_le l.
Proof.
  induction 1 as [|x l Hs IH Hd]; constructor; [exact IH|].
  destruct Hd as [|y l Hxy]; constructor. now apply dist_lt_le.
Qed.

(** C8, as the code has it. The position of a particle starts at 0, is
    never negative and never decreases from one iteration of its walk to
    the next, every step [-ln(U)] with [U] in [0, 1) being positive; the
    states before the last one are the states in flight. *)
Theorem position_never_decreases u a s md fuel i :
  unit_draws u ->
  let tr := walk_trace u a s md fuel (Fin 0) i in
  Sorted dist_le (Fin 0 :: map snd tr) /\
  Forall (dist_le (Fin 0)) (Fin 0 :: map snd tr) /\
  (forall k, dist_lt (Fin 0) (neg_log (u k))) /\
  (forall st p i', walk u a s md fuel (Fin 0) i = Some (st, p, i') ->
     exists tr', tr = tr' ++ [(st, p)] /\
                 Forall (fun sp => fst sp = InFlight) tr').
Proof.
  intros Hu tr. split; [|split; [|split]].
  - now apply sorted_lt_le, walk_trace_sorted.
  - constructor; [simpl; lra|]. apply walk_trace_nonneg; [exact Hu | lra].
  - intros k. apply neg_log_positive, Hu.
  - intros st p i' H. now apply walk_trace_last with i'.
Qed.

Lemma position_never_decreases_witness :
  unit_draws half_draws /\
  Sorted dist_le
    (Fin 0 :: map snd (walk_trace half_draws (3 / 10) (7 / 10) (Fin 10) 20 (Fin 0) 0)).
Proof.
  split; [exact half_draws_unit|].
  apply (position_never_decreases half_draws (3 / 10) (7 / 10) (Fin 10) 20 0).
  exact half_draws_unit.
Defined.

(** The step of the greatest draw that [np.random.rand()] returns,
    [1 - 2^-53], lies between [2^-53] and [2^-52]. *)
Lemma step_of_greatest_draw :
  exists step, neg_log (1 - / 2 ^ 53) = Fin step /\ / 2 ^ 53 < step < / 2 ^ 52.
Proof.
  set (x := / 2 ^ 53).
  assert (Hp : 2 < 2 ^ 53).
  { replace 2 with (2 ^ 1) at 1 by lra. apply Rlt_pow; [lra | lia]. }
  assert (Hx : 0 < x) by (apply Rinv_0_lt_compat; lra).
  assert (Hx2 : x < / 2).
  { unfold x. apply Rinv_lt_contravar; [|exact Hp].
    apply Rmult_lt_0_compat; lra. }
  assert (H52 : / 2 ^ 52 = 2 * x).
  { unfold x. replace (2 ^ 53) with (2 * 2 ^ 52) by (simpl; lra).
    field. }
  exists (- ln (1 - x)). split.
  - unfold neg_log. destruct (Req_dec_T (1 - x) 0) as [E|_]; [lra | reflexivity].
  - rewrite H52. split.
    + assert (H : ln (1 - x) < - x); [|lra].
      apply exp_lt_inv. rewrite exp_ln by lra.
      pose proof (exp_ineq1 (- x)) as H. lra.
    + assert (H : - (2 * x) < ln (1 - x)); [|lra].
      apply exp_lt_inv. rewrite exp_ln by lra.
      rewrite exp_Ropp.
      pose proof (exp_ineq1 (2 * x)) as H.
      assert (H1 : 1 + 2 * x < exp (2 * x)) by (apply H; lra).
      assert (H2 : 0 < exp (2 * x)) by apply exp_pos.
      apply Rmult_lt_reg_r with (exp (2 * x)); [exact H2|].
      rewrite Rinv_l by lra. nra.
Qed.

(** C10. Without particles the final division raises
    [ZeroDivisionError]; with at least one particle a run that ends returns
    a rate between 0 and 1. *)
Theorem transmission_rate_division u fuel a s md :
  monte_carlo_radiation_transport u fuel 0 a s md = Some (Raise ZeroDivisionError) /\
  forall n, (0 < n)%nat -> forall res,
    monte_carlo_radiation_transport u fuel n a s md = Some res ->
    exists rate, res = Ok rate /\ 0 <= rate <= 1.
Proof.
  split; [reflexivity|].
  intros n Hn res H. unfold monte_carlo_radiation_transport in H.
  destruct (particles u a s md fuel n [] 0) as [[tr i']|] eqn:E; [|discriminate].
  injection H as <-. apply particles_length in E. simpl in E.
  apply true_div_range; lia.
Qed.

Lemma transmission_rate_division_witness :
  (0 < 1)%nat /\
  exists rate,
    monte_carlo_radiation_transport half_draws 1 1 (6 / 10) (4 / 10) (Fin 10) =
    Some (Ok rate) /\ 0 <= rate <= 1.
Proof.
  split; [lia|].
  destruct (transmission_rate_division half_draws 1 (6 / 10) (4 / 10) (Fin 10))
    as [_ H].
  destruct (H 1%nat (Nat.lt_0_succ 0) (Ok 0) (transport_half_absorbed (4 / 10)))
    as (rate & E & Hr).
  exists rate. split; [|exact Hr].
  rewrite transport_half_absorbed. now rewrite E.
Defined.

End Transport.

(** ** The code on doubles *)

(** Python floats are IEEE binary64 numbers, and so are the values of
    [float]. Where rounding or the sign of a zero decides what the code
    returns, the code is run here on doubles: the same loops as above, with
    the arithmetic of the machine. *)

Module Binary64.

Import PrimFloat FloatClass.
Local Open Scope float_scope.

(** *** Scheduling *)

Record task_info : Type := TaskInfo {
  predecessors : list string;
  duration : float * float * float
}.

(** The test [scale < 0] of [np.random.normal] looks at the sign bit, so it
    refuses [-0.0] as well; a [nan] passes. *)
Definition sign_bit (x : float) : bool :=
  match classify x with
  | NInf | NNormal | NSubn | NZero => true
  | _ => false
  end.

Definition normal (loc scale z : float) : result float :=
  if sign_bit scale then Raise ValueError else Ok (loc + scale * z).

Definition sample_task_duration (triple : float * float * float) (z : float)
  : result float :=
  let '(optimistic, most_likely, pessimistic) := triple in
  let mean := (optimistic + 4 * most_likely + pessimistic) / 6 in
  let std_dev := (pessimistic - optimistic) / 6 in
  normal mean std_dev z.

Fixpoint max_from (cur : float) (l : list float) : float :=
  match l with
  | [] => cur
  | x :: l' => max_from (if cur <? x then x else cur) l'
  end.

Definition py_max (l : list float) : result float :=
  match l with
  | [] => Raise ValueError
  | x :: l' => Ok (max_from x l')
  end.

Fixpoint items_of (task_durations : Schedule.dict float) (ps : list string)
  : result (list float) :=
  match ps with
  | [] => Ok []
  | p :: ps' =>
      v <- Schedule.dict_item task_durations p ;;
      vs <- items_of task_durations ps' ;;
      Ok (v :: vs)
  end.

Definition start_time_of (task_durations : Schedule.dict float)
  (predecessors : list string) : result float :=
  match predecessors with
  | [] => Ok 0
  | _ :: _ => vs <- items_of task_durations predecessors ;; py_max vs
  end.

Section Replications.

Variable z : nat -> float.

Fixpoint schedule_tasks (ts : Schedule.dict task_info)
  (task_durations : Schedule.dict float) (i : nat)
  : result (Schedule.dict float * nat) :=
  match ts with
  | [] => Ok (task_durations, i)
  | (task, info) :: ts' =>
      d <- sample_task_duration (duration info) (z i) ;;
      start_time <- start_time_of task_durations (predecessors info) ;;
      let finish_time := start_time + d in
      schedule_tasks ts' (Schedule.dict_set task_durations task finish_time) (S i)
  end.

Definition replication (tasks : Schedule.dict task_info) (i : nat)
  : result (float * nat) :=
  '(task_durations, i') <- schedule_tasks tasks [] i ;;
  project_duration <- py_max (Schedule.values task_durations) ;;
  Ok (project_duration, i').

Fixpoint simulations (tasks : Schedule.dict task_info) (n : nat)
  (project_durations : list float) (i : nat) : result (list float) :=
  match n with
  | O => Ok project_durations
  | S n' =>
      '(project_duration, i') <- replication tasks i ;;
      simulations tasks n' (project_durations ++ [project_duration]) i'
  end.

Definition monte_carlo_schedule (tasks : Schedule.dict task_info)
  (num_simulations : nat) : result (list float) :=
  simulations tasks num_simulations [] 0.

End Replications.





(** *** Transport *)

Section Walk.

(** [np.log] on doubles, which is no operation of [float]. *)
Variable np_log : float -> float.

(** The uniform draws behind [np.random.rand()]. *)
Variable u : nat -> float.

Variables absorption_prob scattering_prob max_distance : float.

Definition loop_body (position : float) (i : nat)
  : Transport.status * float * nat :=
  let step := - np_log (u i) in
  let position := position + step in
  if max_distance <=? position then
    (Transport.Transmitted, position, S i)
  else
    let rand := u (S i) in
    if rand <? absorption_prob then
      (Transport.Absorbed, position, S (S i))
    else if rand <? absorption_prob + scattering_prob then
      (Transport.InFlight, position, S (S i))
    else
      (Transport.InFlight, position, S (S i)).

(** The states after each of at most [fuel] iterations of the loop. *)
Fixpoint walk_trace (fuel : nat) (position : float) (i : nat)
  : list (Transport.status * float) :=
  match fuel with
  | O => []
  | S fuel' =>
      match loop_body position i with
      | (Transport.InFlight, position', i') =>
          (Transport.InFlight, position') :: walk_trace fuel' position' i'
      | (terminal, position', _) => [(terminal, position')]
      end
  end.

End Walk.

(** The values of [np.log] at the draws [0.125] and [1 - 2^-53]:
    [-2.0794415416798357] and [-1.1102230246251565e-16]. *)
Definition log_at_draws (x : float) : float :=
  if x =? 0x1p-3 then - 0x1.0a2b23f3bab73p+1
  else if x =? 0x1.fffffffffffffp-1 then - 0x1p-53
  else 0.

(** The draws [0.125], [0.5], [1 - 2^-53], followed by [0.5]. *)
Definition stalling_draws : nat -> float := fun i =>
  match i with
  | 0%nat => 0x1p-3
  | 2%nat => 0x1.fffffffffffffp-1
  | _ => 0x1p-1
  end.

(** *** Where the claims fail on doubles *)


(** The claim C8 fails as stated. The greatest draw [1 - 2^-53] gives a
    positive step between [2^-53] and [2^-52]; added to the position
    [-np.log(0.125)] such a step is rounded away, and the particle is in
    flight at an unchanged position. *)
Lemma position_not_strictly_increasing :
  (exists step : R,
     Transport.neg_log (1 - / 2 ^ 53) = Transport.Fin step /\
     (/ 2 ^ 53 < step < / 2 ^ 52)%R) /\
  (0 <? - log_at_draws (stalling_draws 2)) = true /\
  walk_trace log_at_draws stalling_draws 0x1p-2 0x1.8p-1 10 2 0 0 =
  [(Transport.InFlight, 0x1.0a2b23f3bab73p+1);
   (Transport.InFlight, 0x1.0a2b23f3bab73p+1)].
Proof.
  split; [exact Transport.step_of_greatest_draw|].
  split; reflexivity.
Qed.

End Binary64.

(** ** More on project scheduling *)

Module ScheduleFacts.

Import Schedule.
Local Open Scope Qc_scope.

(** Order facts about [Qc] through [Q], where [lra] applies. *)
Ltac qc_to_q :=
  unfold Qcle, Qclt, Qcminus, Qcdiv, Qcplus, Qcmult, Qcopp, Qcinv, Q2Qc in *;
  cbn [this] in *;
  repeat rewrite Qred_correct in *.

(** *** When a run returns and how it fails *)

Lemma normal_Ok_inv loc scale x d :
  normal loc scale x = Ok d -> 0 <= scale /\ d = loc + scale * x.
Proof.
  unfold normal. destruct (Qclt_le_dec scale 0) as [H|H]; [discriminate|].
  intros [= <-]. split; [exact H | reflexivity].
Qed.

Lemma normal_Raise_inv loc scale x e :
  normal loc scale x = Raise e -> scale < 0 /\ e = ValueError.
Proof.
  unfold normal. destruct (Qclt_le_dec scale 0) as [H|H]; [|discriminate].
  intros [= <-]. split; [exact H | reflexivity].
Qed.

Lemma pert_std_dev_sign triple : 0 <= pert_std_dev triple <-> valid_triple triple.
Proof.
  split; [|apply pert_std_dev_nonneg].
  destruct triple as [[o m] p]. simpl. intros H.
  apply (Qcmult_le_compat_r _ _ (qz 6)) in H; [|apply Qclt_le_weak, qz6_pos].
  rewrite Qcmult_0_l in H. unfold Qcdiv in H. rewrite <- Qcmult_assoc in H.
  rewrite Qcmult_inv_l in H by exact qz6_neq. rewrite Qcmult_1_r in H.
  unfold Qcminus in H. apply <- Qcle_minus_iff in H. exact H.
Qed.

Lemma sample_Ok_inv triple x d :
  sample_task_duration triple x = Ok d ->
  valid_triple triple /\ d = pert_mean triple + pert_std_dev triple * x.
Proof.
  rewrite sample_task_duration_eq. intros H. apply normal_Ok_inv in H.
  destruct H as [H ->]. split; [now apply pert_std_dev_sign | reflexivity].
Qed.

Lemma sample_Raise_inv triple x e :
  sample_task_duration triple x = Raise e ->
  ~ valid_triple triple /\ e = ValueError.
Proof.
  rewrite sample_task_duration_eq. intros H. apply normal_Raise_inv in H.
  destruct H as [H ->]. split; [|reflexivity].
  intros Hv. apply pert_std_dev_sign in Hv. now apply (Qclt_not_le _ _ H).
Qed.

Lemma start_time_of_Ok_known td ps st :
  start_time_of td ps = Ok st -> forallb (known (keys td)) ps = true.
Proof.
  intros H. destruct (forallb (known (keys td)) ps) eqn:E; [reflexivity|].
  destruct (start_time_of_unknown td ps E) as (p & _ & _ & Hraise). congruence.
Qed.

Lemma start_time_of_Raise_inv td ps e :
  start_time_of td ps = Raise e ->
  exists p, In p ps /\ ~ In p (keys td) /\ e = KeyError p.
Proof.
  intros H. destruct (forallb (known (keys td)) ps) eqn:E.
  - destruct (start_time_of_known td ps E) as [st Hst]. congruence.
  - destruct (start_time_of_unknown td ps E) as (p & Hp & Hnot & Hraise).
    exists p. split; [exact Hp|]. split; [exact Hnot | congruence].
Qed.

Lemma fresh_head (td : dict Qc) task info (ts : dict task_info) :
  NoDup (keys td ++ keys ((task, info) :: ts)) -> ~ In task (keys td).
Proof.
  intros Hnd Hin. simpl in Hnd. apply NoDup_remove_2 in Hnd. apply Hnd.
  apply in_or_app. now left.
Qed.

Lemma nodup_step (td : dict Qc) task info (ts : dict task_info) v :
  NoDup (keys td ++ keys ((task, info) :: ts)) ->
  NoDup (keys (dict_set td task v) ++ keys ts).
Proof.
  intros Hnd. rewrite keys_dict_set by (eapply fresh_head; eauto).
  rewrite <- app_assoc. exact Hnd.
Qed.

(** The inner loop runs through only on sampled triples and known
    predecessors. *)
Lemma schedule_tasks_Ok_inv z ts : forall td i td' i',
  schedule_tasks z ts td i = Ok (td', i') ->
  NoDup (keys td ++ keys ts) ->
  valid_triples ts /\ ordered_from (keys td) ts = true.
Proof.
  induction ts as [|[task info] ts IH]; intros td i td' i' H Hnd.
  - split; [constructor | reflexivity].
  - simpl in H.
    apply bind_Ok_inv in H. destruct H as (d & Hd & H).
    apply bind_Ok_inv in H. destruct H as (st & Hst & H).
    apply sample_Ok_inv in Hd. destruct Hd as [Hv _].
    apply start_time_of_Ok_known in Hst.
    destruct (IH _ _ _ _ H (nodup_step td task info ts (st + d) Hnd)) as [Hvs Hord].
    rewrite keys_dict_set in Hord by (eapply fresh_head; eauto).
    split; [now constructor|]. simpl. now rewrite Hst, Hord.
Qed.

Lemma simulations_Raise_inv z tasks n : forall acc i e,
  simulations z tasks n acc i = Raise e ->
  exists i', replication z tasks i' = Raise e.
Proof.
  induction n as [|n IH]; intros acc i e H; simpl in H; [discriminate|].
  destruct (replication z tasks i) as [[pd i1]|e1] eqn:E; simpl in H.
  - now apply IH in H.
  - injection H as <-. now exists i.
Qed.

Lemma simulations_length z tasks n : forall acc i l,
  simulations z tasks n acc i = Ok l ->
  List.length l = (List.length acc + n)%nat.
Proof.
  induction n as [|n IH]; intros acc i l H; simpl in H.
  - injection H as <-. lia.
  - apply bind_Ok_inv in H. destruct H as ([pd i1] & _ & H).
    apply IH in H. rewrite length_app in H. simpl in H. lia.
Qed.

Lemma simulations_Ok z tasks :
  (forall i, exists pd, replication z tasks i = Ok (pd, (i + List.length tasks)%nat)) ->
  forall n acc i, exists l, simulations z tasks n acc i = Ok l.
Proof.
  intros Hrep n. induction n as [|n IH]; intros acc i; simpl; [eauto|].
  destruct (Hrep i) as [pd Hpd]. rewrite Hpd. simpl. apply IH.
Qed.

(** *** Statements *)

(** Which task makes the inner loop raise: one whose triple is refused, or
    one that names a predecessor missing from the dict built so far. *)
Lemma schedule_tasks_Raise_where z ts : forall td i e,
  schedule_tasks z ts td i = Raise e ->
  NoDup (keys td ++ keys ts) ->
  (e = ValueError /\
   exists task info, In (task, info) ts /\ ~ valid_triple (duration info)) \/
  (exists j task info p,
     nth_error ts j = Some (task, info) /\ In p (predecessors info) /\
     ~ In p (keys td ++ keys (firstn j ts)) /\ e = KeyError p).
Proof.
  induction ts as [|[task info] ts IH]; intros td i e H Hnd; [discriminate|].
  simpl in H.
  destruct (sample_task_duration (duration info) (z i)) as [d|e1] eqn:Hd; simpl in H.
  - destruct (start_time_of td (predecessors info)) as [st|e2] eqn:Hst; simpl in H.
    + destruct (IH _ _ _ H (nodup_step td task info ts (st + d) Hnd))
        as [[-> (task' & info' & Hin & Hnv)]|(j & task' & info' & p & Hj & Hp & Hnot & ->)].
      * left. split; [reflexivity|]. exists task', info'. split; [now right | exact Hnv].
      * right. exists (S j), task', info', p. split; [exact Hj|].
        split; [exact Hp|]. split; [|reflexivity].
        rewrite keys_dict_set in Hnot by (eapply fresh_head; eauto).
        rewrite <- app_assoc in Hnot. exact Hnot.
    + injection H as <-.
      destruct (start_time_of_Raise_inv td _ e2 Hst) as (p & Hp & Hnot & ->).
      right. exists 0%nat, task, info, p. split; [reflexivity|].
      split; [exact Hp|]. split; [|reflexivity].
      simpl. now rewrite app_nil_r.
  - injection H as <-. apply sample_Raise_inv in Hd. destruct Hd as [Hnv ->].
    left. split; [reflexivity|]. exists task, info. split; [now left | exact Hnv].
Qed.

Lemma replication_Raise_where z tasks i e :
  NoDup (keys tasks) ->
  replication z tasks i = Raise e ->
  (e = ValueError /\
   (tasks = [] \/
    exists task info, In (task, info) tasks /\ ~ valid_triple (duration info))) \/
  (exists j task info p,
     nth_error tasks j = Some (task, info) /\ In p (predecessors info) /\
     ~ In p (keys (firstn j tasks)) /\ e = KeyError p).
Proof.
  intros Hnd H. unfold replication in H.
  destruct (schedule_tasks z tasks [] i) as [[td i1]|e1] eqn:E; simpl in H.
  - destruct (values td) as [|v vs] eqn:Ev; simpl in H; [|discriminate].
    injection H as <-. left. split; [reflexivity|]. left.
    destruct (schedule_tasks_Ok _ _ _ _ _ _ E Hnd) as (_ & Hk & _).
    destruct td; [|discriminate Ev]. destruct tasks; [reflexivity | discriminate Hk].
  - injection H as <-.
    destruct (schedule_tasks_Raise_where z tasks [] i e1 E Hnd)
      as [[-> Hnv]|(j & t & info & p & Hj & Hp & Hnot & ->)].
    + left. split; [reflexivity | now right].
    + right. exists j, t, info, p. auto.
Qed.

(** Every triple has [optimistic < pessimistic]. *)
Definition spread_triples (tasks : dict task_info) : Prop :=
  Forall (fun ti => let '(o, _, p) := duration (snd ti) in o < p) tasks.

Lemma spread_triples_valid tasks : spread_triples tasks -> valid_triples tasks.
Proof.
  unfold spread_triples, valid_triples. apply Forall_impl.
  intros [t [ps [[o m] p]]]. simpl. apply Qclt_le_weak.
Qed.

(** X1. A run with at least one replication returns only if the graph is
    not empty, every triple has [optimistic <= pessimistic] and every task
    is inserted after its predecessors. It does return, whatever is drawn,
    when the graph is not empty, every triple has
    [optimistic < pessimistic] and every task is inserted after its
    predecessors. *)
Theorem schedule_returns z tasks n :
  NoDup (keys tasks) ->
  ((exists l, monte_carlo_schedule z tasks (S n) = Ok l) ->
   tasks <> [] /\ valid_triples tasks /\ dependency_ordered tasks = true) /\
  (tasks <> [] -> spread_triples tasks -> dependency_ordered tasks = true ->
   exists l, monte_carlo_schedule z tasks (S n) = Ok l).
Proof.
  intros Hnd. split.
  - intros [l H]. unfold monte_carlo_schedule in H. simpl in H.
    apply bind_Ok_inv in H. destruct H as ([pd i1] & Hrep & _).
    destruct (replication_Ok _ _ _ _ _ Hnd Hrep) as (td & Htd & Hk & _ & Hmax).
    destruct (schedule_tasks_Ok_inv _ _ _ _ _ _ Htd Hnd) as [Hv Hord].
    split; [|split; assumption].
    intros ->. destruct td; [discriminate Hmax | discriminate Hk].
  - intros Hne Hv Hord. unfold monte_carlo_schedule.
    apply (simulations_Ok z tasks).
    intros i. apply replication_ordered; auto using spread_triples_valid.
Qed.

Lemma schedule_returns_witness :
  NoDup (keys notebook_tasks) /\
  exists l, monte_carlo_schedule counting_draws notebook_tasks 3 = Ok l.
Proof.
  split; [nodup_keys|].
  apply (proj2 (schedule_returns counting_draws notebook_tasks 2 ltac:(nodup_keys))).
  - discriminate.
  - repeat (constructor; [simpl; unfold Qclt; vm_compute; reflexivity|]). constructor.
  - reflexivity.
Defined.

(** X2. A run fails in two ways only. With [ValueError], for an empty
    graph ([max] of nothing) or for a task whose triple has no
    [optimistic < pessimistic] (a scale that [np.random.normal] refuses).
    With [KeyError] naming a predecessor of a task that is not among the
    tasks inserted before that task. *)
Theorem schedule_failures z tasks n e :
  NoDup (keys tasks) ->
  monte_carlo_schedule z tasks n = Raise e ->
  (e = ValueError /\
   (tasks = [] \/
    exists task info,
      In (task, info) tasks /\
      let '(optimistic, _, pessimistic) := duration info in
      pessimistic <= optimistic)) \/
  (exists j task info p,
     nth_error tasks j = Some (task, info) /\ In p (predecessors info) /\
     ~ In p (keys (firstn j tasks)) /\ e = KeyError p).
Proof.
  intros Hnd H. unfold monte_carlo_schedule in H.
  apply simulations_Raise_inv in H. destruct H as [i H].
  destruct (replication_Raise_where z tasks i e Hnd H)
    as [[-> [->|(task & info & Hin & Hnv)]]|HK].
  - left. split; [reflexivity | now left].
  - left. split; [reflexivity|]. right. exists task, info. split; [exact Hin|].
    unfold valid_triple in Hnv. destruct (duration info) as [[o m] p].
    apply Qclt_le_weak. now apply Qcnot_le_lt.
  - now right.
Qed.

Lemma schedule_failures_witness :
  NoDup (keys b_then_a) /\
  ((KeyError "A"%string = ValueError /\
    (b_then_a = [] \/
     exists task info,
       In (task, info) b_then_a /\
       let '(optimistic, _, pessimistic) := duration info in
       pessimistic <= optimistic)) \/
   (exists j task info p,
      nth_error b_then_a j = Some (task, info) /\ In p (predecessors info) /\
      ~ In p (keys (firstn j b_then_a)) /\ KeyError "A"%string = KeyError p)).
Proof.
  split; [nodup_keys|].
  apply (schedule_failures zero_draws b_then_a 1 (KeyError "A"%string)).
  - nodup_keys.
  - reflexivity.
Defined.

(** X3. A run that returns yields one project duration per replication. *)
Theorem schedule_sample_size z tasks n l :
  monte_carlo_schedule z tasks n = Ok l -> List.length l = n.
Proof.
  intros H. unfold monte_carlo_schedule in H.
  now apply simulations_length in H.
Qed.

Lemma schedule_sample_size_witness :
  List.length [qz 5; qz 5] = 2%nat.
Proof.
  apply (schedule_sample_size zero_draws a_then_b 2 [qz 5; qz 5]).
  qc_results.
Defined.

(** *** The project duration as a longest path *)

(** The durations a replication samples from cursor [i] on, by task. *)
Fixpoint sampled_durations (z : nat -> Qc) (ts : dict task_info) (i : nat)
  : dict Qc :=
  match ts with
  | [] => []
  | (task, info) :: ts' =>
      (task, pert_mean (duration info) + pert_std_dev (duration info) * z i)
      :: sampled_durations z ts' (S i)
  end.

Definition sampled (z : nat -> Qc) (tasks : dict task_info) (i : nat)
  (t : string) : Qc :=
  match dict_get (sampled_durations z tasks i) t with
  | Some d => d
  | None => 0
  end.

Fixpoint chain_sum (w : string -> Qc) (c : list string) : Qc :=
  match c with
  | [] => 0
  | t :: c' => w t + chain_sum w c'
  end.

(** [L] is the greatest total of [w] along a path of the graph that starts
    at a task without predecessors. *)
Definition longest_path (tasks : dict task_info) (w : string -> Qc) (L : Qc)
  : Prop :=
  (exists c t, chain tasks c t /\ chain_sum w c = L) /\
  (forall c t, chain tasks c t -> chain_sum w c <= L).

Lemma keys_sampled_durations z ts : forall i,
  keys (sampled_durations z ts i) = keys ts.
Proof.
  induction ts as [|[task info] ts IH]; intros i; simpl; [reflexivity|].
  now rewrite IH.
Qed.

Lemma sampled_nth z ts : forall i j task info,
  NoDup (keys ts) -> nth_error ts j = Some (task, info) ->
  sampled z ts i task =
  pert_mean (duration info) + pert_std_dev (duration info) * z (i + j)%nat.
Proof.
  induction ts as [|[t0 i0] ts IH]; intros i j task info Hnd Hj.
  - destruct j; discriminate Hj.
  - inversion Hnd as [|? ? Hnot Hnd']; subst.
    destruct j as [|j]; simpl in Hj.
    + injection Hj as <- <-. unfold sampled. simpl.
      rewrite String.eqb_refl, Nat.add_0_r. reflexivity.
    + unfold sampled. simpl.
      destruct (String.eqb t0 task) eqn:E.
      * apply String.eqb_eq in E. subst. elim Hnot.
        apply nth_error_In in Hj. apply (in_map fst) in Hj. exact Hj.
      * replace (i + S j)%nat with (S i + j)%nat by lia.
        now apply (IH (S i) j task info Hnd').
Qed.

Lemma sampled_unknown z ts i t : ~ In t (keys ts) -> sampled z ts i t = 0.
Proof.
  intros H. unfold sampled.
  rewrite <- (keys_sampled_durations z ts i) in H.
  apply dict_get_None in H. now rewrite H.
Qed.

Lemma chain_sum_app w c t : chain_sum w (c ++ [t]) = chain_sum w c + w t.
Proof.
  induction c as [|x c IH]; simpl.
  - ring.
  - rewrite IH. ring.
Qed.

Section Weights.

Variable tasks : dict task_info.
Variable td : dict Qc.
Variable w : string -> Qc.
Hypothesis tasks_ordered : dependency_ordered tasks = true.

(** What the inner loop leaves in [td] when task [t] takes [w t]. *)
Hypothesis finish_times :
  forall j task info, nth_error tasks j = Some (task, info) ->
    exists st,
      start_time_of td (predecessors info) = Ok st /\
      dict_get td task = Some (st + w task).

Lemma finish_bounds_paths c t :
  chain tasks c t -> exists f, dict_get td t = Some f /\ chain_sum w c <= f.
Proof.
  induction 1 as [t info Hin Hps | c p t info Hc IH Hin Hp].
  - destruct (In_nth_error _ _ Hin) as [j Hj].
    destruct (finish_times _ _ _ Hj) as (st & Hst & Hget).
    rewrite Hps in Hst. simpl in Hst. injection Hst as <-.
    exists (0 + w t). split; [exact Hget|]. simpl.
    replace (w t + 0) with (0 + w t) by ring. apply Qcle_refl.
  - destruct IH as (fp & Hfp & Hle).
    destruct (In_nth_error _ _ Hin) as [j Hj].
    destruct (finish_times _ _ _ Hj) as (st & Hst & Hget).
    exists (st + w t). split; [exact Hget|].
    rewrite chain_sum_app.
    apply Qcplus_le_compat; [|apply Qcle_refl].
    apply Qcle_trans with fp; [exact Hle|].
    destruct (predecessors info) as [|q qs] eqn:Eps; [destruct Hp|].
    simpl in Hst. apply bind_Ok_inv in Hst. destruct Hst as (vs & Hvs & Hmax).
    destruct (items_of_In td (q :: qs) vs p Hvs Hp) as (v & Hv & Hvin).
    assert (v = fp) by congruence. subst v.
    apply py_max_Ok in Hmax. now apply Hmax.
Qed.

Lemma finish_is_path : forall j task info,
  nth_error tasks j = Some (task, info) ->
  exists c, chain tasks c task /\ dict_get td task = Some (chain_sum w c).
Proof.
  intros j. induction j as [j IH] using lt_wf_ind. intros task info Hj.
  assert (Hin : In (task, info) tasks) by (eapply nth_error_In; eauto).
  destruct (finish_times _ _ _ Hj) as (st & Hst & Hget).
  destruct (predecessors info) as [|q qs] eqn:Eps.
  - simpl in Hst. injection Hst as <-. exists [task]. split.
    + now apply chain_source with info.
    + rewrite Hget. f_equal. simpl. ring.
  - simpl in Hst. apply bind_Ok_inv in Hst. destruct Hst as (vs & Hvs & Hmax).
    apply py_max_Ok in Hmax. destruct Hmax as [Hst_in _].
    destruct (items_of_In_inv td (q :: qs) vs st Hvs Hst_in) as (p & Hp & Hgetp).
    rewrite <- Eps in Hp.
    destruct (ordered_from_nth _ _ _ _ _ _ tasks_ordered Hj Hp)
      as [[]|(j' & info' & Hlt & Hj')].
    destruct (IH j' Hlt p info' Hj') as (c & Hc & Hgetc).
    exists (c ++ [task]). split.
    + now apply chain_step with p info.
    + rewrite Hget. f_equal. rewrite chain_sum_app. congruence.
Qed.

Lemma maximum_finish_is_longest pd :
  NoDup (keys tasks) -> keys td = keys tasks -> is_maximum pd (values td) ->
  longest_path tasks w pd.
Proof.
  intros Hnd Hk [Hin Hmax]. split.
  - unfold values in Hin. apply in_map_iff in Hin.
    destruct Hin as ([k v] & Hv & Hin). simpl in Hv. subst v.
    assert (Hget : dict_get td k = Some pd).
    { apply In_dict_get; [now rewrite Hk | exact Hin]. }
    assert (Hkin : In k (keys tasks)).
    { rewrite <- Hk. eapply dict_get_keys; eauto. }
    destruct (In_keys_nth_error tasks k Hkin) as (j & info & Hj).
    destruct (finish_is_path j k info Hj) as (c & Hc & Hgetc).
    exists c, k. split; [exact Hc | congruence].
  - intros c t Hc. destruct (finish_bounds_paths c t Hc) as (f & Hf & Hle).
    apply Qcle_trans with f; [exact Hle|]. apply Hmax.
    unfold values. apply in_map_iff. exists (t, f). split; [reflexivity|].
    now apply dict_get_In.
Qed.

End Weights.


Lemma replication_longest z tasks i pd i' :
  NoDup (keys tasks) ->
  replication z tasks i = Ok (pd, i') ->
  longest_path tasks (sampled z tasks i) pd.
Proof.
  intros Hnd H.
  destruct (replication_Ok _ _ _ _ _ Hnd H) as (td & Htd & Hk & Hfin & Hmax).
  destruct (schedule_tasks_Ok_inv _ _ _ _ _ _ Htd Hnd) as [_ Hord].
  apply maximum_finish_is_longest with td; auto.
  - intros j task info Hj.
    destruct (Hfin _ _ _ Hj) as (d & st & Hd & Hst & Hget).
    apply sample_Ok_inv in Hd. destruct Hd as [_ ->].
    exists st. split; [exact Hst|].
    now rewrite (sampled_nth z tasks i j task info Hnd Hj).
  - now apply py_max_Ok.
Qed.



Lemma sampled_le z1 z2 tasks i t :
  NoDup (keys tasks) -> valid_triples tasks ->
  (forall k, z1 k <= z2 k) ->
  sampled z1 tasks i t <= sampled z2 tasks i t.
Proof.
  intros Hnd Hv Hz.
  destruct (in_dec string_dec t (keys tasks)) as [Hin|Hnot].
  - destruct (In_keys_nth_error tasks t Hin) as (j & info & Hj).
    rewrite !(sampled_nth _ tasks i j t info Hnd Hj).
    assert (Hs : 0 <= pert_std_dev (duration info)).
    { apply pert_std_dev_nonneg. unfold valid_triples in Hv.
      rewrite Forall_forall in Hv.
      apply (Hv (t, info)). eapply nth_error_In; eauto. }
    apply Qcplus_le_compat; [apply Qcle_refl|].
    rewrite !(Qcmult_comm (pert_std_dev (duration info))).
    now apply Qcmult_le_compat_r.
  - rewrite !sampled_unknown by exact Hnot. apply Qcle_refl.
Qed.

Lemma chain_sum_le w1 w2 c :
  (forall t, w1 t <= w2 t) -> chain_sum w1 c <= chain_sum w2 c.
Proof.
  intros Hw. induction c as [|t c IH]; simpl.
  - apply Qcle_refl.
  - now apply Qcplus_le_compat.
Qed.

(** X5. Larger draws never shorten the project: when every normal draw of
    one run is at most the corresponding draw of another, a replication
    that returns in the first returns in the second with a project duration
    at least as long. *)
Theorem replication_monotone z1 z2 tasks i pd1 i' :
  NoDup (keys tasks) -> (forall k, z1 k <= z2 k) ->
  replication z1 tasks i = Ok (pd1, i') ->
  exists pd2, replication z2 tasks i = Ok (pd2, i') /\ pd1 <= pd2.
Proof.
  intros Hnd Hz H1.
  destruct (replication_Ok _ _ _ _ _ Hnd H1) as (td & Htd & Hk & _ & Hmax).
  destruct (schedule_tasks_Ok_inv _ _ _ _ _ _ Htd Hnd) as [Hv Hord].
  assert (Hne : tasks <> []).
  { intros ->. destruct td; [discriminate Hmax | discriminate Hk]. }
  destruct (replication_ordered z2 tasks i Hnd Hne Hv Hord) as [pd2 H2].
  apply replication_cursor in H1 as Hi. subst i'.
  exists pd2. split; [exact H2|].
  destruct (replication_longest z1 tasks i pd1 _ Hnd H1)
    as [(c & t & Hc & Hw) _].
  destruct (replication_longest z2 tasks i pd2 _ Hnd H2) as [_ Hmax2].
  rewrite <- Hw. apply Qcle_trans with (chain_sum (sampled z2 tasks i) c).
  - apply chain_sum_le. intros t'. now apply sampled_le.
  - now apply Hmax2 with t.
Qed.

Lemma replication_monotone_witness :
  exists pd2,
    replication counting_draws notebook_tasks 0 = Ok (pd2, 4%nat) /\ qz 12 <= pd2.
Proof.
  apply (replication_monotone zero_draws counting_draws notebook_tasks 0 (qz 12) 4).
  - nodup_keys.
  - intros k. unfold zero_draws, counting_draws, qz. qc_to_q.
    unfold Qle. simpl. lia.
  - qc_results.
Defined.

(** *** Zero variance *)










(** *** A single task *)

Lemma simulations_single z t triple n : forall acc i,
  valid_triple triple ->
  simulations z [(t, TaskInfo [] triple)] n acc i =
  Ok (acc ++ map (fun k => pert_mean triple + pert_std_dev triple * z k) (seq i n)).
Proof.
  induction n as [|n IH]; intros acc i Hv; simpl.
  - now rewrite app_nil_r.
  - unfold replication. simpl.
    rewrite sample_task_duration_valid by exact Hv. simpl.
    rewrite IH by exact Hv. rewrite <- app_assoc. simpl.
    now rewrite Qcplus_0_l.
Qed.



(** X7. Sampled durations are not clamped. For a triple with positive mean
    and positive standard deviation, a draw [z] so low that
    [std_dev * z <= - 2 * mean] gives a duration at or below [- mean], so a
    negative one, and with it a negative project duration for the graph of
    that single task. *)
Theorem negative_duration_not_clamped z t triple :
  0 < pert_mean triple -> 0 < pert_std_dev triple ->
  pert_std_dev triple * z 0%nat <= - (qz 2 * pert_mean triple) ->
  exists d,
    sample_task_duration triple (z 0%nat) = Ok d /\
    monte_carlo_schedule z [(t, TaskInfo [] triple)] 1 = Ok [d] /\
    d <= - pert_mean triple /\ d < 0.
Proof.
  intros Hm Hs Hz.
  assert (Hv : valid_triple triple).
  { apply pert_std_dev_sign. now apply Qclt_le_weak. }
  exists (pert_mean triple + pert_std_dev triple * z 0%nat).
  split; [now apply sample_task_duration_valid|].
  split; [unfold monte_carlo_schedule; now rewrite simulations_single|].
  generalize dependent (pert_std_dev triple * z 0%nat). intros x Hx.
  generalize dependent (pert_mean triple). intros m Hm Hx.
  assert (H2 : qz 2 = 1 + 1) by (apply Qc_is_canon; reflexivity).
  rewrite H2 in Hx. clear H2.
  assert (Hle : m + x <= - m).
  { apply Qcle_trans with (m + - ((1 + 1) * m)).
    - apply Qcplus_le_compat; [apply Qcle_refl | exact Hx].
    - replace (m + - ((1 + 1) * m)) with (- m) by ring. apply Qcle_refl. }
  split; [exact Hle|].
  apply Qcle_lt_trans with (- m); [exact Hle|].
  apply Qclt_minus_iff. replace (0 + - - m) with m by ring. exact Hm.
Qed.

(** Every draw is -15. *)
Definition low_draws : nat -> Qc := fun _ => qz (-15).

Lemma negative_duration_not_clamped_witness :
  exists d,
    sample_task_duration (qz 2, qz 4, qz 6) (low_draws 0%nat) = Ok d /\
    monte_carlo_schedule low_draws
      [("Task A"%string, TaskInfo [] (qz 2, qz 4, qz 6))] 1 = Ok [d] /\
    d <= - pert_mean (qz 2, qz 4, qz 6) /\ d < 0.
Proof.
  apply (negative_duration_not_clamped low_draws "Task A"%string (qz 2, qz 4, qz 6)).
  - unfold Qclt. vm_compute. reflexivity.
  - unfold Qclt. vm_compute. reflexivity.
  - unfold Qcle. vm_compute. discriminate.
Defined.

End ScheduleFacts.

(** ** More on particle transport *)

Module TransportFacts.

Import Transport.
Local Open Scope R_scope.

Lemma dist_le_trans a b c : dist_le a b -> dist_le b c -> dist_le a c.
Proof. destruct a, b, c; simpl; try tauto; lra. Qed.

Lemma dist_le_refl a : dist_le a a.
Proof. destruct a; simpl; [lra | exact I]. Qed.

(** *** How a walk ends *)

Lemma walk_end_status u a s md fuel : forall position i st p i',
  walk u a s md fuel position i = Some (st, p, i') ->
  (st = Transmitted /\ dist_le md p) \/ (st = Absorbed /\ ~ dist_le md p).
Proof.
  induction fuel as [|fuel IH]; intros position i st p i' H; [discriminate|].
  rewrite walk_S in H.
  destruct (loop_body_cases u a s md position i)
    as [[Hle E]|[(Hnle & _ & E)|(_ & _ & E)]]; rewrite E in H.
  - injection H as <- <- _. now left.
  - injection H as <- <- _. now right.
  - now apply IH in H.
Qed.

Lemma particles_beyond u a s md fuel n : forall acc i tr i',
  particles u a s md fuel n acc i = Some (tr, i') ->
  Forall (dist_le md) acc -> Forall (dist_le md) tr.
Proof.
  induction n as [|n IH]; intros acc i tr i' H Hacc.
  - simpl in H. now injection H as <- _.
  - rewrite particles_S in H.
    destruct (walk u a s md fuel (Fin 0) i) as [[[st p] i1]|] eqn:E; [|discriminate].
    destruct (walk_end_status u a s md fuel _ _ _ _ _ E) as [[-> Hle]|[-> _]].
    + apply IH in H; [exact H|]. apply Forall_app. split; [exact Hacc|].
      now constructor.
    + now apply IH in H.
Qed.

(** X8. A walk ends transmitted exactly when its last position has
    reached [max_distance], and absorbed exactly when it has not; every
    position recorded in [transmissions] is at or beyond [max_distance]. *)
Theorem transmitted_iff_beyond u a s md fuel :
  (forall position i st p i',
     walk u a s md fuel position i = Some (st, p, i') ->
     (st = Transmitted <-> dist_le md p) /\
     (st = Absorbed <-> ~ dist_le md p)) /\
  (forall n i tr i',
     particles u a s md fuel n [] i = Some (tr, i') ->
     Forall (dist_le md) tr).
Proof.
  split.
  - intros position i st p i' H.
    destruct (walk_end_status u a s md fuel _ _ _ _ _ H) as [[-> Hle]|[-> Hnle]].
    + split; split; auto; try discriminate. intros Hn. contradiction.
    + split; split; auto; try discriminate. intros Hle. contradiction.
  - intros n i tr i' H. apply (particles_beyond u a s md fuel n [] i tr i' H).
    constructor.
Qed.

Lemma transmitted_iff_beyond_witness :
  (Absorbed = Transmitted <-> dist_le (Fin 10) (Fin (0 + ln 2))) /\
  (Absorbed = Absorbed <-> ~ dist_le (Fin 10) (Fin (0 + ln 2))).
Proof.
  destruct (transmitted_iff_beyond half_draws (6 / 10) (4 / 10) (Fin 10) 1) as [H _].
  apply (H (Fin 0) 0%nat Absorbed (Fin (0 + ln 2)) 2%nat).
  apply walk_half_absorbed.
Defined.

(** *** No absorption *)

Lemma walk_no_absorption u a s md fuel : forall position i st p i',
  unit_draws u -> a <= 0 ->
  walk u a s md fuel position i = Some (st, p, i') -> st = Transmitted.
Proof.
  induction fuel as [|fuel IH]; intros position i st p i' Hu Ha H; [discriminate|].
  rewrite walk_S in H.
  destruct (loop_body_cases u a s md position i)
    as [[_ E]|[(_ & Hlt & _)|(_ & _ & E)]].
  - rewrite E in H. now injection H as <- _ _.
  - destruct (Hu (S i)). lra.
  - rewrite E in H. now apply IH in H.
Qed.

Lemma particles_no_absorption u a s md fuel n : forall acc i tr i',
  unit_draws u -> a <= 0 ->
  particles u a s md fuel n acc i = Some (tr, i') ->
  List.length tr = (List.length acc + n)%nat.
Proof.
  induction n as [|n IH]; intros acc i tr i' Hu Ha H.
  - simpl in H. injection H as <- _. lia.
  - rewrite particles_S in H.
    destruct (walk u a s md fuel (Fin 0) i) as [[[st p] i1]|] eqn:E; [|discriminate].
    apply walk_no_absorption in E; [|assumption..]. subst st.
    apply IH in H; [|assumption..]. rewrite length_app in H. simpl in H. lia.
Qed.

(** X9. With [absorption_prob <= 0] no particle is absorbed, whatever the
    depth of the medium: a walk that ends ends transmitted, and a run with at
    least one particle that ends returns the rate 1. *)
Theorem no_absorption_rate_one u fuel n a s md res :
  unit_draws u -> a <= 0 -> (0 < n)%nat ->
  monte_carlo_radiation_transport u fuel n a s md = Some res ->
  res = Ok 1.
Proof.
  intros Hu Ha Hn H. unfold monte_carlo_radiation_transport in H.
  destruct (particles u a s md fuel n [] 0) as [[tr i']|] eqn:E; [|discriminate].
  injection H as <-.
  apply particles_no_absorption in E; [|assumption..]. simpl in E. rewrite E.
  destruct n as [|n]; [lia|]. unfold true_div. f_equal.
  assert (H0 : 0 < INR (S n)) by (apply lt_0_INR; lia).
  unfold Rdiv. apply Rinv_r. lra.
Qed.

Lemma ln_2_lt_1 : ln 2 < 1.
Proof.
  apply exp_lt_inv. rewrite exp_ln by lra.
  pose proof (exp_ineq1 1). lra.
Qed.

(** With every draw 1/2 and no absorption, a particle leaves a medium of
    depth 1 at its second step. *)
Lemma neg_log_half_draws k : neg_log (half_draws k) = Fin (ln 2).
Proof. unfold half_draws. apply neg_log_half. Qed.

Lemma walk_half_two_steps s i :
  walk half_draws 0 s (Fin 1) 2 (Fin 0) i =
  Some (Transmitted, Fin (0 + ln 2 + ln 2), S (S (S i))).
Proof.
  pose proof ln_2_lt_1 as H1. pose proof ln_lt_2 as H2.
  rewrite walk_S.
  destruct (loop_body_cases half_draws 0 s (Fin 1) (Fin 0) i)
    as [[H _]|[(_ & H & _)|(_ & _ & E)]].
  - rewrite neg_log_half_draws in H. simpl in H. lra.
  - unfold half_draws in H. lra.
  - rewrite E, neg_log_half_draws. simpl dist_add.
    rewrite walk_S.
    destruct (loop_body_cases half_draws 0 s (Fin 1) (Fin (0 + ln 2)) (S (S i)))
      as [[_ E']|[(H & _)|(H & _)]].
    + rewrite E', neg_log_half_draws. reflexivity.
    + rewrite neg_log_half_draws in H. simpl in H. lra.
    + rewrite neg_log_half_draws in H. simpl in H. lra.
Qed.

Lemma transport_half_two_steps s :
  monte_carlo_radiation_transport half_draws 2 1 0 s (Fin 1) = Some (Ok (1 / 1)).
Proof.
  unfold monte_carlo_radiation_transport.
  rewrite particles_S, walk_half_two_steps. reflexivity.
Qed.

Lemma no_absorption_rate_one_witness :
  unit_draws half_draws /\
  monte_carlo_radiation_transport half_draws 2 1 0 (7 / 10) (Fin 1) = Some (Ok 1).
Proof.
  split; [exact half_draws_unit|].
  rewrite transport_half_two_steps. f_equal.
  apply (no_absorption_rate_one half_draws 2 1 0 (7 / 10) (Fin 1) (Ok (1 / 1))).
  - exact half_draws_unit.
  - lra.
  - lia.
  - apply transport_half_two_steps.
Defined.

(** *** Runs that end *)

Lemma particles_total u a s md fuel :
  (forall i, exists r, walk u a s md fuel (Fin 0) i = Some r) ->
  forall n acc i, exists tr i', particles u a s md fuel n acc i = Some (tr, i').
Proof.
  intros Hw n. induction n as [|n IH]; intros acc i.
  - simpl. eauto.
  - rewrite particles_S. destruct (Hw i) as [[[st p] i1] E]. rewrite E.
    destruct st; apply IH.
Qed.

Lemma run_total u a s md fuel n :
  (forall i, exists r, walk u a s md fuel (Fin 0) i = Some r) ->
  (0 < n)%nat ->
  exists rate,
    monte_carlo_radiation_transport u fuel n a s md = Some (Ok rate) /\
    0 <= rate <= 1.
Proof.
  intros Hw Hn. unfold monte_carlo_radiation_transport.
  destruct (particles_total u a s md fuel Hw n [] 0) as (tr & i' & E).
  rewrite E. apply particles_length in E. simpl in E.
  destruct (true_div_range (List.length tr) n Hn) as (rate & Hrate & Hr); [lia|].
  exists rate. now rewrite Hrate.
Qed.

(** X10. With [absorption_prob >= 1] every walk ends in its first
    iteration, transmitted when the first step reaches [max_distance] and
    absorbed at its first interaction otherwise, so a run with at least one
    particle always ends and returns a rate. *)
Theorem certain_absorption_first_iteration u a s md :
  unit_draws u -> 1 <= a ->
  (forall position i,
     let p := dist_add position (neg_log (u i)) in
     (dist_le md p /\
      walk u a s md 1 position i = Some (Transmitted, p, S i)) \/
     (~ dist_le md p /\
      walk u a s md 1 position i = Some (Absorbed, p, S (S i)))) /\
  (forall n, (0 < n)%nat ->
     exists rate,
       monte_carlo_radiation_transport u 1 n a s md = Some (Ok rate) /\
       0 <= rate <= 1).
Proof.
  intros Hu Ha.
  assert (Hw : forall position i,
     let p := dist_add position (neg_log (u i)) in
     (dist_le md p /\
      walk u a s md 1 position i = Some (Transmitted, p, S i)) \/
     (~ dist_le md p /\
      walk u a s md 1 position i = Some (Absorbed, p, S (S i)))).
  { intros position i p. rewrite walk_S.
    destruct (loop_body_cases u a s md position i)
      as [[Hle E]|[(Hnle & _ & E)|(_ & Hge & _)]].
    - left. now rewrite E.
    - right. now rewrite E.
    - destruct (Hu (S i)). lra. }
  split; [exact Hw|].
  intros n Hn. apply run_total; [|exact Hn].
  intros i. destruct (Hw (Fin 0) i) as [[_ E]|[_ E]]; rewrite E; eauto.
Qed.

Lemma certain_absorption_first_iteration_witness :
  unit_draws half_draws /\
  exists rate,
    monte_carlo_radiation_transport half_draws 1 5 1 0 (Fin 10) = Some (Ok rate) /\
    0 <= rate <= 1.
Proof.
  split; [exact half_draws_unit|].
  destruct (certain_absorption_first_iteration half_draws 1 0 (Fin 10)) as [_ H].
  - exact half_draws_unit.
  - lra.
  - apply H. lia.
Defined.

(** *** Thinner media and weaker absorption *)

Lemma walk_position_ge u a s md fuel : forall position i st p i',
  unit_draws u ->
  walk u a s md fuel position i = Some (st, p, i') -> dist_le position p.
Proof.
  induction fuel as [|fuel IH]; intros position i st p i' Hu H; [discriminate|].
  rewrite walk_S in H.
  assert (Hstep : dist_le position (dist_add position (neg_log (u i)))).
  { destruct position as [x|]; [|exact I].
    apply dist_lt_le, dist_add_increases, neg_log_positive, Hu. }
  destruct (loop_body_cases u a s md position i)
    as [[_ E]|[(_ & _ & E)|(_ & _ & E)]]; rewrite E in H.
  - now injection H as _ <- _.
  - now injection H as _ <- _.
  - apply IH in H; [|exact Hu]. now apply dist_le_trans with (2 := H).
Qed.

(** X12. A particle that is transmitted is also transmitted, from the same
    draws, through any medium that is no deeper and absorbs no more, no
    farther and with no more draws. *)
Theorem transmission_monotone u s a1 a2 md1 md2 fuel :
  unit_draws u -> a1 <= a2 -> dist_le md1 md2 ->
  forall position i p2 i2,
    walk u a2 s md2 fuel position i = Some (Transmitted, p2, i2) ->
    exists p1 i1,
      walk u a1 s md1 fuel position i = Some (Transmitted, p1, i1) /\
      dist_le p1 p2 /\ (i1 <= i2)%nat.
Proof.
  intros Hu Ha Hmd.
  induction fuel as [|fuel IH]; intros position i p2 i2 H; [discriminate|].
  rewrite walk_S in H. rewrite walk_S.
  destruct (loop_body_cases u a2 s md2 position i)
    as [[Hle E]|[(_ & _ & E)|(Hnle & Hge & E)]]; rewrite E in H.
  - injection H as <- <-.
    destruct (loop_body_cases u a1 s md1 position i)
      as [[_ E1]|[(Hn & _)|(Hn & _)]].
    + rewrite E1. eexists _, _. split; [reflexivity|].
      split; [apply dist_le_refl | lia].
    + elim Hn. now apply dist_le_trans with md2.
    + elim Hn. now apply dist_le_trans with md2.
  - discriminate.
  - destruct (loop_body_cases u a1 s md1 position i)
      as [[_ E1]|[(_ & Hlt & _)|(_ & _ & E1)]].
    + rewrite E1. eexists _, _. split; [reflexivity|].
      split.
      * now apply (walk_position_ge u a2 s md2 fuel _ _ _ _ _ Hu H).
      * apply walk_cursor in H. lia.
    + lra.
    + rewrite E1. now apply IH.
Qed.

Lemma transmission_monotone_witness :
  unit_draws half_draws /\
  exists p1 i1,
    walk half_draws 0 (7 / 10) (Fin 0) 2 (Fin 0) 0 = Some (Transmitted, p1, i1) /\
    dist_le p1 (Fin (0 + ln 2 + ln 2)) /\ (i1 <= 3)%nat.
Proof.
  split; [exact half_draws_unit|].
  apply (transmission_monotone half_draws (7 / 10) 0 0 (Fin 0) (Fin 1) 2).
  - exact half_draws_unit.
  - lra.
  - simpl. lra.
  - apply walk_half_two_steps.
Defined.

End TransportFacts.

(** ** The analysis of the sample of project durations *)

Module Analysis.

Import Schedule ScheduleFacts.
Local Open Scope Qc_scope.

(** A count as a rational. *)
Definition qn (n : nat) : Qc := qz (Z.of_nat n).



Fixpoint insert (x : Qc) (l : list Qc) : list Qc :=
  match l with
  | [] => [x]
  | y :: l' => if Qclt_le_dec y x then y :: insert x l' else x :: l
  end.

Fixpoint sort (l : list Qc) : list Qc :=
  match l with
  | [] => []
  | x :: l' => insert x (sort l')
  end.

(** [np.percentile(a, q)] with the default linear interpolation: in the
    sorted sample, the value at the position [(n - 1) * q / 100], between
    the two neighbouring entries when the position is no integer. A [q]
    outside [0, 100] is refused, and an empty sample has no entry to
    return. *)
Definition np_percentile (a : list Qc) (q : Qc) : result Qc :=
  if Qclt_le_dec q 0 then Raise ValueError
  else if Qclt_le_dec (qz 100) q then Raise ValueError
  else
    match a with
    | [] => Raise IndexError
    | _ :: _ =>
        let s := sort a in
        let n := List.length a in
        let h := qn (n - 1) * (q / qz 100) in
        let lo := Z.to_nat (Qfloor h) in
        let hi := Nat.min (lo + 1) (n - 1) in
        let gamma := h - qn lo in
        Ok (nth lo s 0 + (nth hi s 0 - nth lo s 0) * gamma)
    end.


(** *** Counts as rationals *)

Lemma this_qz k : this (qz k) = inject_Z k.
Proof.
  unfold qz, Q2Qc. cbn [this]. apply Qred_identity. simpl. apply Z.gcd_1_r.
Qed.

Lemma qn_le n m : (n <= m)%nat -> qn n <= qn m.
Proof.
  intros H. unfold qn, Qcle. rewrite !this_qz.
  rewrite <- Zle_Qle. lia.
Qed.

Lemma qn_le_inv n m : qn n <= qn m -> (n <= m)%nat.
Proof.
  unfold qn, Qcle. rewrite !this_qz. rewrite <- Zle_Qle. lia.
Qed.

Lemma qn_pos n : (0 < n)%nat -> 0 < qn n.
Proof.
  intros H. unfold qn, Qclt. rewrite this_qz.
  change (this 0) with (inject_Z 0). rewrite <- Zlt_Qlt. lia.
Qed.

(** *** Sorting *)

Lemma insert_perm x l : Permutation (insert x l) (x :: l).
Proof.
  induction l as [|y l IH]; simpl; [reflexivity|].
  destruct (Qclt_le_dec y x); [|reflexivity].
  rewrite IH. apply perm_swap.
Qed.

Lemma sort_perm l : Permutation (sort l) l.
Proof.
  induction l as [|x l IH]; simpl; [reflexivity|].
  rewrite insert_perm. now constructor.
Qed.

Lemma insert_sorted x l :
  StronglySorted Qcle l -> StronglySorted Qcle (insert x l).
Proof.
  induction 1 as [|y l Hs IH Hall]; simpl.
  - repeat constructor.
  - destruct (Qclt_le_dec y x) as [Hlt|Hle].
    + constructor; [exact IH|].
      apply Forall_forall. intros w Hw.
      apply (Permutation_in _ (insert_perm x l)) in Hw.
      destruct Hw as [<-|Hw]; [now apply Qclt_le_weak|].
      rewrite Forall_forall in Hall. now apply Hall.
    + constructor; [now constructor|].
      constructor; [exact Hle|].
      apply Forall_forall. intros w Hw. rewrite Forall_forall in Hall.
      apply Qcle_trans with y; [exact Hle | now apply Hall].
Qed.

Lemma sort_sorted l : StronglySorted Qcle (sort l).
Proof.
  induction l as [|x l IH]; simpl; [constructor | now apply insert_sorted].
Qed.

Lemma sort_length l : List.length (sort l) = List.length l.
Proof. apply Permutation_length, sort_perm. Qed.

Lemma sorted_nth_le s : StronglySorted Qcle s ->
  forall i j, (i <= j)%nat -> (j < List.length s)%nat -> nth i s 0 <= nth j s 0.
Proof.
  induction 1 as [|x s Hs IH Hall]; intros i j Hij Hj; [simpl in Hj; lia|].
  destruct i as [|i], j as [|j]; simpl in *.
  - apply Qcle_refl.
  - rewrite Forall_forall in Hall. apply Hall. apply nth_In. lia.
  - lia.
  - apply IH; lia.
Qed.

Lemma sort_nth_In a i :
  (i < List.length a)%nat -> In (nth i (sort a) 0) a.
Proof.
  intros H. apply (Permutation_in _ (sort_perm a)).
  apply nth_In. now rewrite sort_length.
Qed.

(** *** The position in the sorted sample *)

Definition position_of (n : nat) (q : Qc) : Qc := qn (n - 1) * (q / qz 100).

Definition below (h : Qc) : nat := Z.to_nat (Qfloor h).

Lemma np_percentile_eq a q :
  a <> [] -> 0 <= q -> q <= qz 100 ->
  np_percentile a q =
  let s := sort a in
  let n := List.length a in
  let h := position_of n q in
  let lo := below h in
  let hi := Nat.min (lo + 1) (n - 1) in
  Ok (nth lo s 0 + (nth hi s 0 - nth lo s 0) * (h - qn lo)).
Proof.
  intros Ha H0 H100. unfold np_percentile.
  destruct (Qclt_le_dec q 0) as [H|_]; [elim (Qclt_not_le _ _ H H0)|].
  destruct (Qclt_le_dec (qz 100) q) as [H|_].
  - apply Qcle_lt_or_eq in H100. destruct H100 as [H100| ->].
    + elim (Qclt_not_le _ _ H). now apply Qclt_le_weak.
    + elim (Qclt_not_eq _ _ H). reflexivity.
  - destruct a as [|x a]; [congruence | reflexivity].
Qed.

Lemma qz100 : this (qz 100) = inject_Z 100.
Proof. apply this_qz. Qed.

Lemma position_of_range n q :
  0 <= q -> q <= qz 100 -> 0 <= position_of n q /\ position_of n q <= qn (n - 1).
Proof.
  intros H0 H100. unfold position_of.
  assert (Hn : 0 <= qn (n - 1)) by (apply (qn_le 0); lia).
  generalize dependent (qn (n - 1)). intros c Hc.
  qc_to_q. rewrite qz100 in *. unfold inject_Z in *.
  assert (E : / (100 # 1) == 1 # 100) by reflexivity.
  rewrite E. clear E.
  generalize dependent (this q). generalize dependent (this c).
  intros c' Hc' q' H0' H100'.
  assert (P1 : (0 <= c' * q')%Q) by (apply Qmult_le_0_compat; assumption).
  assert (P2 : (0 <= c' * ((100 # 1) - q'))%Q) by (apply Qmult_le_0_compat; lra).
  split; lra.
Qed.

Lemma position_of_le n q1 q2 :
  q1 <= q2 -> position_of n q1 <= position_of n q2.
Proof.
  intros H. unfold position_of.
  assert (Hn : 0 <= qn (n - 1)) by (apply (qn_le 0); lia).
  generalize dependent (qn (n - 1)). intros c Hc.
  qc_to_q. rewrite qz100 in *. unfold inject_Z in *.
  assert (E : / (100 # 1) == 1 # 100) by reflexivity.
  rewrite E. clear E.
  generalize dependent (this q1). generalize dependent (this q2).
  generalize dependent (this c). intros c' Hc' q2' q1' Hq.
  assert (P : (0 <= c' * (q2' - q1'))%Q) by (apply Qmult_le_0_compat; lra).
  lra.
Qed.

Lemma below_spec h :
  0 <= h -> qn (below h) <= h /\ h < qn (below h) + 1.
Proof.
  intros H0. unfold below, qn.
  assert (Hf : (0 <= Qfloor h)%Z).
  { change 0%Z with (Qfloor 0). apply Qfloor_resp_le. exact H0. }
  qc_to_q. rewrite this_qz, Z2Nat.id by exact Hf.
  split; [apply Qfloor_le|].
  pose proof (Qlt_floor h) as H. rewrite inject_Z_plus in H. exact H.
Qed.

Lemma below_le h1 h2 : h1 <= h2 -> (below h1 <= below h2)%nat.
Proof.
  intros H. unfold below.
  pose proof (Qfloor_resp_le _ _ H). lia.
Qed.

Lemma below_bound h n : 0 <= h -> h <= qn n -> (below h <= n)%nat.
Proof.
  intros H0 Hn. apply qn_le_inv.
  apply Qcle_trans with h; [now apply below_spec | exact Hn].
Qed.

Lemma lerp_between x y g :
  x <= y -> 0 <= g -> g <= 1 -> x <= x + (y - x) * g /\ x + (y - x) * g <= y.
Proof. intros. qc_to_q. split; nra. Qed.

Lemma lerp_le x y g1 g2 :
  x <= y -> g1 <= g2 -> x + (y - x) * g1 <= x + (y - x) * g2.
Proof. intros. qc_to_q. nra. Qed.

Lemma percentile_between a q :
  a <> [] -> 0 <= q -> q <= qz 100 ->
  let n := List.length a in
  let lo := below (position_of n q) in
  let hi := Nat.min (lo + 1) (n - 1) in
  exists v,
    np_percentile a q = Ok v /\
    (lo <= hi)%nat /\ (hi < n)%nat /\
    nth lo (sort a) 0 <= v /\ v <= nth hi (sort a) 0.
Proof.
  intros Ha H0 H100 n lo hi.
  assert (Hn : (0 < n)%nat).
  { subst n. destruct a; [congruence | simpl; lia]. }
  destruct (position_of_range n q H0 H100) as [Hh0 Hhn].
  assert (Hlo : (lo <= n - 1)%nat) by (apply below_bound; assumption).
  destruct (below_spec (position_of n q) Hh0) as [Hg0 Hg1].
  fold lo in Hg0, Hg1.
  assert (Hlohi : (lo <= hi)%nat) by (subst hi; lia).
  assert (Hhi : (hi < n)%nat) by (subst hi; lia).
  rewrite (np_percentile_eq a q Ha H0 H100). cbv zeta. fold n lo hi.
  eexists. split; [reflexivity|]. split; [exact Hlohi|]. split; [exact Hhi|].
  apply lerp_between.
  - apply sorted_nth_le; [apply sort_sorted | exact Hlohi |].
    now rewrite sort_length.
  - revert Hg0 Hg1. generalize (qn lo) (position_of n q).
    clear. intros c h Hg0 Hg1. qc_to_q. lra.
  - revert Hg0 Hg1. generalize (qn lo) (position_of n q).
    clear. intros c h Hg0 Hg1. qc_to_q. lra.
Qed.

(** *** Statements *)

(** X13. For a sample that is not empty and [0 <= q <= 100], the [q]-th
    percentile lies between two entries of the sample, and so within every
    bound on the sample. *)
Theorem percentile_within_sample a q lb ub :
  a <> [] -> 0 <= q -> q <= qz 100 ->
  (forall x, In x a -> lb <= x /\ x <= ub) ->
  exists p x y,
    np_percentile a q = Ok p /\
    In x a /\ In y a /\ x <= p /\ p <= y /\ lb <= p /\ p <= ub.
Proof.
  intros Ha H0 H100 Hb.
  destruct (percentile_between a q Ha H0 H100) as (p & Hp & Hlohi & Hhi & Hp1 & Hp2).
  set (lo := below (position_of (List.length a) q)) in *.
  set (hi := Nat.min (lo + 1) (List.length a - 1)) in *.
  assert (Hx : In (nth lo (sort a) 0) a) by (apply sort_nth_In; lia).
  assert (Hy : In (nth hi (sort a) 0) a) by (apply sort_nth_In; lia).
  exists p, (nth lo (sort a) 0), (nth hi (sort a) 0).
  repeat split; try assumption.
  - apply Qcle_trans with (2 := Hp1). now apply Hb.
  - apply Qcle_trans with (1 := Hp2). now apply Hb.
Qed.

Definition four_durations : list Qc := [qz 4; qz 1; qz 3; qz 2].

Lemma percentile_within_sample_witness :
  exists p x y,
    np_percentile four_durations (qz 90) = Ok p /\
    In x four_durations /\ In y four_durations /\ x <= p /\ p <= y /\
    qz 1 <= p /\ p <= qz 4.
Proof.
  apply (percentile_within_sample four_durations (qz 90) (qz 1) (qz 4)).
  - discriminate.
  - unfold Qcle. vm_compute. discriminate.
  - unfold Qcle. vm_compute. discriminate.
  - intros x [<-|[<-|[<-|[<-|[]]]]]; split; unfold Qcle; vm_compute; discriminate.
Defined.

(** X14. The percentile does not decrease with [q]: for
    [0 <= q1 <= q2 <= 100] the [q1]-th percentile of a sample is at most its
    [q2]-th percentile. *)
Theorem percentile_monotone a q1 q2 :
  a <> [] -> 0 <= q1 -> q1 <= q2 -> q2 <= qz 100 ->
  exists p1 p2,
    np_percentile a q1 = Ok p1 /\ np_percentile a q2 = Ok p2 /\ p1 <= p2.
Proof.
  intros Ha H0 H12 H100.
  assert (H0' : 0 <= q2) by now apply Qcle_trans with q1.
  assert (H100' : q1 <= qz 100) by now apply Qcle_trans with q2.
  set (n := List.length a).
  assert (Hh : position_of n q1 <= position_of n q2) by now apply position_of_le.
  pose proof (below_le _ _ Hh) as Hlo.
  destruct (percentile_between a q1 Ha H0 H100') as (p1 & Hp1 & _ & _ & _ & Hp1u).
  destruct (percentile_between a q2 Ha H0' H100) as (p2 & Hp2 & _ & Hhi2 & Hp2l & _).
  fold n in Hp1u, Hhi2, Hp2l.
  destruct (position_of_range n q2 H0' H100) as [Hq0 Hqn].
  pose proof (below_bound _ _ Hq0 Hqn) as Hb2.
  assert (Hn : (0 < n)%nat) by (subst n; destruct a; [congruence | simpl; lia]).
  exists p1, p2. split; [exact Hp1|]. split; [exact Hp2|].
  destruct (Nat.eq_dec (below (position_of n q1)) (below (position_of n q2))) as [E|E].
  - rewrite (np_percentile_eq a q1 Ha H0 H100') in Hp1.
    rewrite (np_percentile_eq a q2 Ha H0' H100) in Hp2.
    cbv zeta in Hp1, Hp2. fold n in Hp1, Hp2. rewrite E in Hp1.
    injection Hp1 as <-. injection Hp2 as <-.
    apply lerp_le.
    + apply sorted_nth_le; [apply sort_sorted | lia |].
      rewrite sort_length. fold n. lia.
    + revert Hh. generalize (position_of n q1) (position_of n q2)
        (qn (below (position_of n q2))).
      clear. intros h1 h2 c Hh. qc_to_q. lra.
  - apply Qcle_trans with (1 := Hp1u). apply Qcle_trans with (2 := Hp2l).
    apply sorted_nth_le; [apply sort_sorted | lia |].
    rewrite sort_length. fold n. lia.
Qed.

Lemma percentile_monotone_witness :
  exists p1 p2,
    np_percentile four_durations (qz 50) = Ok p1 /\
    np_percentile four_durations (qz 90) = Ok p2 /\ p1 <= p2.
Proof.
  apply (percentile_monotone four_durations (qz 50) (qz 90)).
  - discriminate.
  - unfold Qcle. vm_compute. discriminate.
  - unfold Qcle. vm_compute. discriminate.
  - unfold Qcle. vm_compute. discriminate.
Defined.

Lemma below_qn k : below (qn k) = k.
Proof.
  unfold below, qn. rewrite this_qz, Qfloor_Z. apply Nat2Z.id.
Qed.

Lemma position_of_0 n : position_of n 0 = 0.
Proof. unfold position_of, Qcdiv. now rewrite Qcmult_0_l, Qcmult_0_r. Qed.

Lemma position_of_100 n : position_of n (qz 100) = qn (n - 1).
Proof.
  unfold position_of, Qcdiv. rewrite Qcmult_inv_r; [apply Qcmult_1_r|].
  intros H. discriminate H.
Qed.

Lemma sorted_first_least a x :
  In x a -> nth 0 (sort a) 0 <= x.
Proof.
  intros H. apply (Permutation_in _ (Permutation_sym (sort_perm a))) in H.
  destruct (In_nth _ _ 0 H) as (i & Hi & <-).
  apply sorted_nth_le; [apply sort_sorted | lia | exact Hi].
Qed.

Lemma sorted_last_greatest a x :
  In x a -> x <= nth (List.length a - 1) (sort a) 0.
Proof.
  intros H. apply (Permutation_in _ (Permutation_sym (sort_perm a))) in H.
  destruct (In_nth _ _ 0 H) as (i & Hi & <-).
  rewrite sort_length in Hi.
  apply sorted_nth_le; [apply sort_sorted | lia |].
  rewrite sort_length. lia.
Qed.

(** X15. The percentile at [q = 0] is the least entry of the sample and the
    percentile at [q = 100] is its greatest entry. *)
Theorem percentile_extremes a :
  a <> [] ->
  exists least greatest,
    np_percentile a 0 = Ok least /\
    np_percentile a (qz 100) = Ok greatest /\
    In least a /\ In greatest a /\
    forall x, In x a -> least <= x /\ x <= greatest.
Proof.
  intros Ha.
  assert (Hn : (0 < List.length a)%nat) by (destruct a; [congruence | simpl; lia]).
  exists (nth 0 (sort a) 0), (nth (List.length a - 1) (sort a) 0).
  split; [|split; [|split; [|split]]].
  - rewrite np_percentile_eq; [|exact Ha | apply Qcle_refl | discriminate].
    cbv zeta. rewrite position_of_0.
    change (below 0) with 0%nat. f_equal.
    replace (0 - qn 0) with 0 by (apply Qc_is_canon; reflexivity). ring.
  - rewrite np_percentile_eq; [|exact Ha | discriminate | apply Qcle_refl].
    cbv zeta. rewrite position_of_100, below_qn.
    replace (Nat.min (List.length a - 1 + 1) (List.length a - 1))
      with (List.length a - 1)%nat by lia.
    f_equal. ring.
  - apply sort_nth_In. lia.
  - apply sort_nth_In. lia.
  - intros x Hx. split; [now apply sorted_first_least | now apply sorted_last_greatest].
Qed.

Lemma percentile_extremes_witness :
  exists least greatest,
    np_percentile four_durations 0 = Ok least /\
    np_percentile four_durations (qz 100) = Ok greatest /\
    In least four_durations /\ In greatest four_durations /\
    forall x, In x four_durations -> least <= x /\ x <= greatest.
Proof.
  apply (percentile_extremes four_durations). discriminate.
Defined.



End Analysis.

(** ** Means of samples of reals *)

Module RealSample.

Local Open Scope R_scope.

Definition sum_of (a : list R) : R := fold_right Rplus 0 a.

(** [np.mean(a)]; [None] stands for the [nan] of an empty sample. *)
Definition mean (a : list R) : option R :=
  match a with
  | [] => None
  | _ :: _ => Some (sum_of a / INR (List.length a))
  end.

Lemma sum_of_map_le {A : Type} (f g : A -> R) (xs : list A) :
  (forall x, In x xs -> f x <= g x) ->
  sum_of (map f xs) <= sum_of (map g xs).
Proof.
  induction xs as [|x xs IH]; intros H; simpl; [lra|].
  pose proof (H x (or_introl eq_refl)).
  assert (sum_of (map f xs) <= sum_of (map g xs)) by (apply IH; intros; apply H; now right).
  lra.
Qed.

Lemma sum_of_map_const {A : Type} (c : R) (xs : list A) :
  sum_of (map (fun _ => c) xs) = INR (List.length xs) * c.
Proof.
  induction xs as [|x xs IH]; [simpl; ring|].
  simpl map. simpl sum_of. rewrite IH. simpl List.length. rewrite S_INR. ring.
Qed.

Lemma mean_map {A : Type} (f : A -> R) (xs : list A) :
  xs <> [] ->
  mean (map f xs) = Some (sum_of (map f xs) / INR (List.length xs)).
Proof.
  destruct xs as [|x xs]; [congruence|]. intros _.
  unfold mean. simpl map. simpl List.length. now rewrite length_map.
Qed.

Lemma length_pos {A : Type} (xs : list A) : xs <> [] -> 0 < INR (List.length xs).
Proof.
  intros H. apply lt_0_INR. destruct xs; [congruence | simpl; lia].
Qed.

Lemma mean_map_le {A : Type} (f g : A -> R) (xs : list A) :
  xs <> [] -> (forall x, In x xs -> f x <= g x) ->
  exists mf mg,
    mean (map f xs) = Some mf /\ mean (map g xs) = Some mg /\ mf <= mg.
Proof.
  intros Hne H. rewrite !mean_map by exact Hne.
  eexists _, _. split; [reflexivity|]. split; [reflexivity|].
  pose proof (length_pos xs Hne) as Hn. pose proof (sum_of_map_le f g xs H).
  unfold Rdiv. apply Rmult_le_compat_r; [|assumption].
  left. now apply Rinv_0_lt_compat.
Qed.

Lemma mean_map_const {A : Type} (c : R) (xs : list A) :
  xs <> [] -> mean (map (fun _ => c) xs) = Some c.
Proof.
  intros Hne. rewrite mean_map by exact Hne. rewrite sum_of_map_const.
  pose proof (length_pos xs Hne). f_equal. field. lra.
Qed.

Lemma mean_map_bounds {A : Type} (f : A -> R) (xs : list A) (lb ub : R) :
  xs <> [] -> (forall x, In x xs -> lb <= f x <= ub) ->
  exists m, mean (map f xs) = Some m /\ lb <= m <= ub.
Proof.
  intros Hne H.
  destruct (mean_map_le (fun _ => lb) f xs Hne) as (m1 & m & H1 & Hm & Hle1).
  { intros x Hx. now apply H. }
  destruct (mean_map_le f (fun _ => ub) xs Hne) as (m' & m2 & Hm' & H2 & Hle2).
  { intros x Hx. now apply H. }
  rewrite mean_map_const in H1, H2 by exact Hne.
  injection H1 as <-. injection H2 as <-.
  assert (m' = m) by congruence. subst m'.
  exists m. split; [exact Hm | lra].
Qed.

(** The mean does not decrease when every entry is replaced by a greater
    one. *)
Lemma mean_map_monotone {A : Type} (f g : A -> R) (xs : list A) mf mg :
  (forall x, In x xs -> f x <= g x) ->
  mean (map f xs) = Some mf -> mean (map g xs) = Some mg -> mf <= mg.
Proof.
  intros H Hf Hg.
  assert (Hne : xs <> []).
  { intros ->. discriminate Hf. }
  destruct (mean_map_le f g xs Hne H) as (mf' & mg' & Hf' & Hg' & Hle).
  congruence.
Qed.

End RealSample.

(** ** Numeric integration *)

Module Integration.

Import Transport RealSample.
Local Open Scope R_scope.

(** [np.random.uniform(low, high, n)] from the cursor [i]. *)
Definition uniform (u : nat -> R) (low high : R) (n i : nat) : list R :=
  map (fun k => low + (high - low) * u k) (seq i n).

(** [f] is applied to the array of sample points entry by entry, as
    [np.sin] is. *)
Definition monte_carlo_integration (u : nat -> R) (f : R -> R) (a b : R)
  (num_samples : nat) : option R :=
  let x := uniform u a b num_samples 0 in
  let fx := map f x in
  match mean fx with
  | Some m => Some ((b - a) * m)
  | None => None
  end.

Definition func (x : R) : R := sin x.

Lemma uniform_nonempty u a b n i : (0 < n)%nat -> uniform u a b n i <> [].
Proof.
  intros H. unfold uniform. destruct n as [|n]; [lia | discriminate].
Qed.

Lemma uniform_range u a b n i x :
  unit_draws u -> a <= b -> In x (uniform u a b n i) -> a <= x <= b.
Proof.
  intros Hu Hab H. unfold uniform in H. apply in_map_iff in H.
  destruct H as (k & <- & _). destruct (Hu k). split; nra.
Qed.

Lemma integration_range u f a b n lb ub :
  unit_draws u -> a <= b -> (0 < n)%nat ->
  (forall x, a <= x <= b -> lb <= f x <= ub) ->
  exists v,
    monte_carlo_integration u f a b n = Some v /\
    (b - a) * lb <= v <= (b - a) * ub.
Proof.
  intros Hu Hab Hn Hf.
  destruct (mean_map_bounds f (uniform u a b n 0) lb ub) as (m & Hm & Hlb & Hub).
  - now apply uniform_nonempty.
  - intros x Hx. apply Hf. now apply (uniform_range u a b n 0 x).
  - unfold monte_carlo_integration. rewrite Hm.
    eexists. split; [reflexivity|]. split; nra.
Qed.

(** Every draw is 1/2. *)
Definition mid_draws : nat -> R := fun _ => 1 / 2.

Lemma mid_draws_unit : unit_draws mid_draws.
Proof. intros k. unfold mid_draws. lra. Qed.

(** X17. From the same draws the estimate does not decrease with the
    integrand: for [a <= b] and [f <= g], an estimate for [f] and an
    estimate for [g] that are numbers are in the same order. *)
Theorem integration_monotone u f g a b n vf vg :
  a <= b -> (forall x, f x <= g x) ->
  monte_carlo_integration u f a b n = Some vf ->
  monte_carlo_integration u g a b n = Some vg ->
  vf <= vg.
Proof.
  intros Hab Hfg Hf Hg. unfold monte_carlo_integration in Hf, Hg.
  destruct (mean (map f (uniform u a b n 0))) as [mf|] eqn:Ef; [|discriminate].
  destruct (mean (map g (uniform u a b n 0))) as [mg|] eqn:Eg; [|discriminate].
  injection Hf as <-. injection Hg as <-.
  assert (Hle : mf <= mg).
  { apply (mean_map_monotone f g (uniform u a b n 0)); auto. }
  nra.
Qed.

Lemma integration_monotone_witness :
  exists vf vg,
    monte_carlo_integration mid_draws sin 0 2 3 = Some vf /\
    monte_carlo_integration mid_draws (fun _ => 1) 0 2 3 = Some vg /\
    vf <= vg.
Proof.
  eexists. eexists. split; [reflexivity|]. split; [reflexivity|].
  apply (integration_monotone mid_draws sin (fun _ => 1) 0 2 3).
  - lra.
  - intros x. apply SIN_bound.
  - reflexivity.
  - reflexivity.
Defined.

(** X20. The estimate of the integral of [func] over [0, pi] lies between
    0 and [pi], whatever is drawn and however many samples are taken. *)
Theorem sine_integral_range u n :
  unit_draws u -> (0 < n)%nat ->
  exists v,
    monte_carlo_integration u func 0 PI n = Some v /\ 0 <= v <= PI.
Proof.
  intros Hu Hn.
  destruct (integration_range u func 0 PI n 0 1) as (v & Hv & Hr).
  - exact Hu.
  - left. exact PI_RGT_0.
  - exact Hn.
  - intros x [H0 H1]. unfold func. split.
    + now apply sin_ge_0.
    + apply SIN_bound.
  - exists v. split; [exact Hv | lra].
Qed.

Lemma sine_integral_range_witness :
  unit_draws mid_draws /\
  exists v,
    monte_carlo_integration mid_draws func 0 PI 5 = Some v /\ 0 <= v <= PI.
Proof.
  split; [exact mid_draws_unit|].
  apply (sine_integral_range mid_draws 5).
  - exact mid_draws_unit.
  - lia.
Defined.

End Integration.

(** ** The volume of the hypersphere *)

Module Hypersphere.

Import Schedule ScheduleFacts Analysis.
Local Open Scope Qc_scope.

(** One entry of [np.random.uniform(low, high, size)] from one draw. *)
Definition uniform_entry (low high x : Qc) : Qc := low + (high - low) * x.

(** Row [r] of [X]: the array is filled row by row from the draws. *)
Definition point (u : nat -> Qc) (n r : nat) : list Qc :=
  map (fun c => uniform_entry (- (1)) 1 (u (r * n + c)%nat)) (seq 0 n).

(** [np.sum(x**2)] along a row. *)
Definition distance_squared (x : list Qc) : Qc :=
  fold_right Qcplus 0 (map (fun c => c * c) x).

Definition leb (x y : Qc) : bool := if Qclt_le_dec y x then false else true.

(** [np.sum] of an array of booleans. *)
Definition count_true (l : list bool) : nat := List.length (filter (fun b => b) l).

(** [fraction_inside] is [nan] when [num_samples] is 0, the [0 / 0] of
    numpy numbers, for which [None] stands. The product with [cube_volume]
    converts the integer [2 ** n] to a double and raises [OverflowError]
    when it has none, from [2 ** 1024] on. *)
Definition monte_carlo_hypersphere_volume (u : nat -> Qc) (n num_samples : nat)
  : result (option Qc) :=
  let X := map (point u n) (seq 0 num_samples) in
  let distances_squared := map distance_squared X in
  let inside_sphere := map (fun d => leb d 1) distances_squared in
  let fraction_inside :=
    match num_samples with
    | O => None
    | S _ => Some (qn (count_true inside_sphere) / qn num_samples)
    end in
  let cube_volume := qz 2 ^ n in
  if (1024 <=? n)%nat then Raise OverflowError
  else
    match fraction_inside with
    | None => Ok None
    | Some fraction =>
        let sphere_volume_estimate := fraction * cube_volume in
        Ok (Some sphere_volume_estimate)
    end.

(** The number of the first [num_samples] sample points that lie inside the
    sphere. *)
Definition samples_inside (u : nat -> Qc) (n num_samples : nat) : nat :=
  List.length
    (filter (fun r => leb (distance_squared (point u n r)) 1) (seq 0 num_samples)).

Definition unit_interval_draws (u : nat -> Qc) : Prop := forall k, 0 <= u k /\ u k < 1.

Lemma count_true_all {A : Type} (f : A -> bool) (xs : list A) :
  (forall x, In x xs -> f x = true) ->
  count_true (map f xs) = List.length xs.
Proof.
  induction xs as [|x xs IH]; intros H; [reflexivity|].
  unfold count_true in *. simpl. rewrite (H x (or_introl eq_refl)). simpl.
  f_equal. apply IH. intros y Hy. apply H. now right.
Qed.

Lemma fraction_range k n :
  (0 < n)%nat -> (k <= n)%nat -> 0 <= qn k / qn n /\ qn k / qn n <= 1.
Proof.
  intros Hn Hk.
  pose proof (qn_pos n Hn) as Hpos.
  assert (Hne : qn n <> 0) by (intros E; rewrite E in Hpos; discriminate Hpos).
  split.
  - apply Qcmult_lt_0_le_reg_r with (qn n); [exact Hpos|].
    unfold Qcdiv. rewrite <- Qcmult_assoc, Qcmult_inv_l, Qcmult_1_r by exact Hne.
    rewrite Qcmult_0_l. apply (qn_le 0). lia.
  - apply Qcmult_lt_0_le_reg_r with (qn n); [exact Hpos|].
    unfold Qcdiv. rewrite <- Qcmult_assoc, Qcmult_inv_l, Qcmult_1_r by exact Hne.
    rewrite Qcmult_1_l. now apply qn_le.
Qed.

Lemma scale_range f v : 0 <= f -> f <= 1 -> 0 <= v -> 0 <= f * v /\ f * v <= v.
Proof.
  intros H0 H1 Hv. qc_to_q.
  assert (P1 : (0 <= f * v)%Q) by (apply Qmult_le_0_compat; assumption).
  assert (P2 : (0 <= (1 - f) * v)%Q) by (apply Qmult_le_0_compat; lra).
  split; lra.
Qed.

Lemma cube_volume_nonneg n : 0 <= qz 2 ^ n.
Proof. apply Qcpower_pos. unfold Qcle. vm_compute. discriminate. Qed.

Lemma count_true_map {A : Type} (f : A -> bool) (xs : list A) :
  count_true (map f xs) = List.length (filter f xs).
Proof.
  unfold count_true. induction xs as [|x xs IH]; [reflexivity|].
  simpl. destruct (f x); simpl; now rewrite IH.
Qed.

Lemma samples_inside_le u n num_samples :
  (samples_inside u n num_samples <= num_samples)%nat.
Proof.
  unfold samples_inside.
  pose proof (filter_length_le
                (fun r => leb (distance_squared (point u n r)) 1)
                (seq 0 num_samples)) as H.
  now rewrite length_seq in H.
Qed.

Lemma volume_eq u n num_samples :
  (0 < num_samples)%nat -> (n < 1024)%nat ->
  monte_carlo_hypersphere_volume u n num_samples =
  Ok (Some (qn (samples_inside u n num_samples) / qn num_samples * qz 2 ^ n)).
Proof.
  intros Hs Hn. unfold monte_carlo_hypersphere_volume. cbv zeta.
  destruct (Nat.leb_spec 1024 n) as [H|_]; [lia|].
  destruct num_samples as [|m]; [lia|].
  rewrite !map_map, count_true_map. reflexivity.
Qed.

(** X21. In a dimension below 1024 and from a positive number of samples,
    the estimate is the volume [2^n] of the cube scaled by the fraction of
    the samples that lie inside the sphere, so it lies between 0 and [2^n].
    From dimension 1024 on the volume of the cube is no double and the run
    raises [OverflowError]. *)
Theorem hypersphere_volume_range u n num_samples :
  (0 < num_samples)%nat ->
  ((n < 1024)%nat ->
   exists v,
     monte_carlo_hypersphere_volume u n num_samples = Ok (Some v) /\
     v = qn (samples_inside u n num_samples) / qn num_samples * qz 2 ^ n /\
     (samples_inside u n num_samples <= num_samples)%nat /\
     0 <= v /\ v <= qz 2 ^ n) /\
  ((1024 <= n)%nat ->
   monte_carlo_hypersphere_volume u n num_samples = Raise OverflowError).
Proof.
  intros Hs. split.
  - intros Hn. rewrite volume_eq by assumption.
    pose proof (samples_inside_le u n num_samples) as Hk.
    eexists. split; [reflexivity|]. split; [reflexivity|]. split; [exact Hk|].
    destruct (fraction_range (samples_inside u n num_samples) num_samples Hs Hk)
      as [H0 H1].
    apply scale_range; [exact H0 | exact H1 | apply cube_volume_nonneg].
  - intros Hn. unfold monte_carlo_hypersphere_volume. cbv zeta.
    destruct (Nat.leb_spec 1024 n) as [_|H]; [reflexivity | lia].
Qed.

Lemma hypersphere_volume_range_witness :
  ((10 < 1024)%nat ->
   exists v,
     monte_carlo_hypersphere_volume (fun _ => qz 0) 10 4 = Ok (Some v) /\
     v = qn (samples_inside (fun _ => qz 0) 10 4) / qn 4 * qz 2 ^ 10 /\
     (samples_inside (fun _ => qz 0) 10 4 <= 4)%nat /\
     0 <= v /\ v <= qz 2 ^ 10) /\
  ((1024 <= 10)%nat ->
   monte_carlo_hypersphere_volume (fun _ => qz 0) 10 4 = Raise OverflowError).
Proof.
  apply (hypersphere_volume_range (fun _ => qz 0) 10 4). lia.
Defined.

Lemma all_inside u n num_samples :
  (0 < num_samples)%nat -> (n < 1024)%nat ->
  (forall r, leb (distance_squared (point u n r)) 1 = true) ->
  monte_carlo_hypersphere_volume u n num_samples = Ok (Some (qz 2 ^ n)).
Proof.
  intros Hs Hn Hin. rewrite volume_eq by assumption.
  assert (Hk : samples_inside u n num_samples = num_samples).
  { unfold samples_inside. rewrite <- count_true_map.
    rewrite count_true_all by (intros r _; apply Hin). apply length_seq. }
  rewrite Hk. do 2 f_equal.
  pose proof (qn_pos num_samples Hs) as Hpos.
  assert (Hne : qn num_samples <> 0) by (intros E; rewrite E in Hpos; discriminate Hpos).
  unfold Qcdiv. rewrite Qcmult_inv_r by exact Hne. apply Qcmult_1_l.
Qed.

(** X22. In dimension 0 the estimate is exactly 1 and in dimension 1 it
    is exactly 2, the length of [[-1, 1]]: every sample lies inside. *)
Theorem low_dimensions_exact u num_samples :
  unit_interval_draws u -> (0 < num_samples)%nat ->
  monte_carlo_hypersphere_volume u 0 num_samples = Ok (Some 1) /\
  monte_carlo_hypersphere_volume u 1 num_samples = Ok (Some (qz 2)).
Proof.
  intros Hu Hn. split.
  - rewrite all_inside; [reflexivity | exact Hn | lia | intros r; reflexivity].
  - rewrite all_inside;
      [do 2 f_equal; apply Qc_is_canon; reflexivity | exact Hn | lia |].
    intros r. unfold point, distance_squared, leb, uniform_entry.
    cbn [seq map fold_right].
    destruct (Qclt_le_dec 1 _) as [H|_]; [|reflexivity].
    exfalso. destruct (Hu (r * 1 + 0)%nat) as [H0 H1].
    revert H H0 H1. generalize (u (r * 1 + 0)%nat). intros x H H0 H1.
    qc_to_q. nra.
Qed.

Lemma low_dimensions_exact_witness :
  unit_interval_draws (fun _ => qz 0) /\
  monte_carlo_hypersphere_volume (fun _ => qz 0) 0 3 = Ok (Some 1) /\
  monte_carlo_hypersphere_volume (fun _ => qz 0) 1 3 = Ok (Some (qz 2)).
Proof.
  assert (Hu : unit_interval_draws (fun _ => qz 0)).
  { intros k. split; unfold Qcle, Qclt; vm_compute; [discriminate | reflexivity]. }
  split; [exact Hu|].
  apply (low_dimensions_exact (fun _ => qz 0) 3); [exact Hu | lia].
Defined.

End Hypersphere.

(** ** The price of a European call *)

Module OptionPricing.

Import RealSample.
Local Open Scope R_scope.

(** The asset price at maturity for the standard normal draw [z], for
    [T >= 0]. *)
Definition asset_price (S0 T r sigma z : R) : R :=
  S0 * exp ((r - 0.5 * sigma ^ 2) * T + sigma * sqrt T * z).

(** For [T < 0], [np.sqrt(T)] is [nan] and so is all that is computed from
    it; [None] stands for [nan]. The exponentials and products of doubles
    can overflow, to results that are infinite or [nan]; this is not
    modelled, and the statements below are about estimates that are
    numbers. *)
Definition monte_carlo_option_pricing (normal : nat -> R)
  (S0 K T r sigma : R) (num_simulations : nat) : option R :=
  if Rlt_dec T 0 then None
  else
    let Z := map normal (seq 0 num_simulations) in
    let ST := map (asset_price S0 T r sigma) Z in
    let payoffs := map (fun st => Rmax (st - K) 0) ST in
    match mean payoffs with
    | Some m => Some (exp (- r * T) * m)
    | None => None
    end.

Lemma draws_nonempty (normal : nat -> R) n :
  (0 < n)%nat -> map normal (seq 0 n) <> [].
Proof. destruct n; [lia | discriminate]. Qed.

Lemma pricing_eq normal S0 K T r sigma n :
  0 <= T ->
  monte_carlo_option_pricing normal S0 K T r sigma n =
  match mean (map (fun z => Rmax (asset_price S0 T r sigma z - K) 0)
                  (map normal (seq 0 n))) with
  | Some m => Some (exp (- r * T) * m)
  | None => None
  end.
Proof.
  intros HT. unfold monte_carlo_option_pricing.
  destruct (Rlt_dec T 0); [lra|]. now rewrite map_map.
Qed.

Lemma discount_pos r T : 0 < exp (- r * T).
Proof. apply exp_pos. Qed.

(** Every draw is 1. *)
Definition unit_normal : nat -> R := fun _ => 1.

(** What an estimate that is a number is made of. *)
Lemma pricing_Some_inv normal S0 K T r sigma n C0 :
  monte_carlo_option_pricing normal S0 K T r sigma n = Some C0 ->
  exists m,
    mean (map (fun z => Rmax (asset_price S0 T r sigma z - K) 0)
              (map normal (seq 0 n))) = Some m /\
    C0 = exp (- r * T) * m.
Proof.
  unfold monte_carlo_option_pricing.
  destruct (Rlt_dec T 0); [discriminate|]. rewrite map_map.
  destruct (mean _) as [m|]; [|discriminate].
  intros [= <-]. now exists m.
Qed.

Lemma pricing_returns normal S0 K T r sigma n :
  0 <= T -> (0 < n)%nat ->
  exists C0, monte_carlo_option_pricing normal S0 K T r sigma n = Some C0.
Proof.
  intros HT Hn. rewrite pricing_eq by exact HT.
  rewrite mean_map by now apply draws_nonempty. eauto.
Qed.

(** X23. An estimated price of the call that is a number is never
    negative, whatever is drawn. *)
Theorem option_price_nonneg normal S0 K T r sigma n C0 :
  monte_carlo_option_pricing normal S0 K T r sigma n = Some C0 -> 0 <= C0.
Proof.
  intros H. apply pricing_Some_inv in H. destruct H as (m & Hm & ->).
  pose proof (discount_pos r T) as Hd.
  assert (Hne : map normal (seq 0 n) <> []).
  { intros E. rewrite E in Hm. discriminate Hm. }
  assert (H0 : 0 <= m).
  { apply (mean_map_monotone (fun _ => 0)
             (fun z => Rmax (asset_price S0 T r sigma z - K) 0)
             (map normal (seq 0 n))).
    - intros z _. apply Rmax_r.
    - now apply mean_map_const.
    - exact Hm. }
  nra.
Qed.

Lemma option_price_nonneg_witness :
  exists C0,
    monte_carlo_option_pricing unit_normal 100 105 1 0.05 0.2 4 = Some C0 /\
    0 <= C0.
Proof.
  destruct (pricing_returns unit_normal 100 105 1 0.05 0.2 4) as [C0 H];
    [lra | lia |].
  exists C0. split; [exact H|].
  exact (option_price_nonneg unit_normal 100 105 1 0.05 0.2 4 C0 H).
Defined.

(** X24. From the same draws the price does not increase with the strike:
    for [K1 <= K2], estimates for the two strikes that are numbers are in
    the opposite order. *)
Theorem option_price_strike normal S0 K1 K2 T r sigma n C1 C2 :
  K1 <= K2 ->
  monte_carlo_option_pricing normal S0 K1 T r sigma n = Some C1 ->
  monte_carlo_option_pricing normal S0 K2 T r sigma n = Some C2 ->
  C2 <= C1.
Proof.
  intros HK H1 H2.
  apply pricing_Some_inv in H1. destruct H1 as (m1 & Hm1 & ->).
  apply pricing_Some_inv in H2. destruct H2 as (m2 & Hm2 & ->).
  pose proof (discount_pos r T) as Hd.
  assert (Hle : m2 <= m1).
  { apply (mean_map_monotone
             (fun z => Rmax (asset_price S0 T r sigma z - K2) 0)
             (fun z => Rmax (asset_price S0 T r sigma z - K1) 0)
             (map normal (seq 0 n))); [|exact Hm2 | exact Hm1].
    intros z _. unfold Rmax.
    destruct (Rle_dec (asset_price S0 T r sigma z - K1) 0);
    destruct (Rle_dec (asset_price S0 T r sigma z - K2) 0); lra. }
  nra.
Qed.

Lemma option_price_strike_witness :
  exists C1 C2,
    monte_carlo_option_pricing unit_normal 100 100 1 0.05 0.2 4 = Some C1 /\
    monte_carlo_option_pricing unit_normal 100 105 1 0.05 0.2 4 = Some C2 /\
    C2 <= C1.
Proof.
  destruct (pricing_returns unit_normal 100 100 1 0.05 0.2 4) as [C1 H1];
    [lra | lia |].
  destruct (pricing_returns unit_normal 100 105 1 0.05 0.2 4) as [C2 H2];
    [lra | lia |].
  exists C1, C2. split; [exact H1|]. split; [exact H2|].
  apply (option_price_strike unit_normal 100 100 105 1 0.05 0.2 4 C1 C2);
    [lra | exact H1 | exact H2].
Defined.

End OptionPricing.

(** ** Value at risk *)

Module ValueAtRisk.

Local Open Scope R_scope.

(** [np.sqrt(x)]; [None] stands for the [nan] of a negative argument. *)
Definition np_sqrt (x : R) : option R :=
  if Rlt_dec x 0 then None else Some (sqrt x).

(** [np.random.normal(loc, scale, n)] from the standard normal draws: a
    negative scale is refused. *)
Definition normal_sample (normal : nat -> R) (loc scale : R) (n : nat)
  : result (list R) :=
  if Rlt_dec scale 0 then Raise ValueError
  else Ok (map (fun k => loc + scale * normal k) (seq 0 n)).

Fixpoint insert_sorted (x : R) (l : list R) : list R :=
  match l with
  | [] => [x]
  | y :: l' => if Rlt_le_dec y x then y :: insert_sorted x l' else x :: l
  end.

Fixpoint sorted (l : list R) : list R :=
  match l with
  | [] => []
  | x :: l' => insert_sorted x (sorted l')
  end.

(** The position [(n - 1) * q / 100] in the sorted sample and the index
    below it. *)
Definition rank (n : nat) (q : R) : R := INR (n - 1) * (q / 100).

Definition index_below (h : R) : nat := Z.to_nat (Int_part h).

(** The checks of [np.percentile] on a sample of [len] entries: a [q]
    outside [0, 100] is refused, and an empty sample has no entry to
    return. *)
Definition percentile_args (len : nat) (q : R) : result unit :=
  if Rlt_dec q 0 then Raise ValueError
  else if Rlt_dec 100 q then Raise ValueError
  else
    match len with
    | O => Raise IndexError
    | S _ => Ok tt
    end.

(** [np.percentile(a, q)] with the default linear interpolation. *)
Definition percentile (a : list R) (q : R) : result R :=
  _ <- percentile_args (List.length a) q ;;
  let s := sorted a in
  let n := List.length a in
  let h := rank n q in
  let lo := index_below h in
  let hi := Nat.min (lo + 1) (n - 1) in
  Ok (nth lo s 0 + (nth hi s 0 - nth lo s 0) * (h - INR lo)).

(** With a negative time horizon the scale and every simulated return are
    [nan], and so is the percentile; [None] stands for [nan]. A scale of
    [-0.0], which [np.random.normal] refuses as it does a negative one, has
    no counterpart among the reals. *)
Definition monte_carlo_var (normal : nat -> R)
  (portfolio_value mu sigma time_horizon confidence_level : R)
  (num_simulations : nat) : result (option R) :=
  match np_sqrt time_horizon with
  | None =>
      _ <- percentile_args num_simulations (confidence_level * 100) ;;
      Ok None
  | Some root =>
      simulated_returns <-
        normal_sample normal (mu * time_horizon) (sigma * root) num_simulations ;;
      let simulated_values :=
        map (fun ret => portfolio_value * (1 + ret)) simulated_returns in
      let potential_losses :=
        map (fun value => portfolio_value - value) simulated_values in
      VaR <- percentile potential_losses (confidence_level * 100) ;;
      Ok (Some VaR)
  end.

(** *** Sorting *)

Lemma insert_sorted_perm x l : Permutation (insert_sorted x l) (x :: l).
Proof.
  induction l as [|y l IH]; simpl; [reflexivity|].
  destruct (Rlt_le_dec y x); [|reflexivity].
  rewrite IH. apply perm_swap.
Qed.

Lemma sorted_perm l : Permutation (sorted l) l.
Proof.
  induction l as [|x l IH]; simpl; [reflexivity|].
  rewrite insert_sorted_perm. now constructor.
Qed.

Lemma insert_sorted_ordered x l :
  StronglySorted Rle l -> StronglySorted Rle (insert_sorted x l).
Proof.
  induction 1 as [|y l Hs IH Hall]; simpl.
  - repeat constructor.
  - destruct (Rlt_le_dec y x) as [Hlt|Hle].
    + constructor; [exact IH|].
      apply Forall_forall. intros w Hw.
      apply (Permutation_in _ (insert_sorted_perm x l)) in Hw.
      destruct Hw as [<-|Hw]; [lra|].
      rewrite Forall_forall in Hall. now apply Hall.
    + constructor; [now constructor|].
      constructor; [exact Hle|].
      apply Forall_forall. intros w Hw. rewrite Forall_forall in Hall.
      specialize (Hall w Hw). lra.
Qed.

Lemma sorted_ordered l : StronglySorted Rle (sorted l).
Proof.
  induction l as [|x l IH]; simpl; [constructor | now apply insert_sorted_ordered].
Qed.

Lemma sorted_length l : List.length (sorted l) = List.length l.
Proof. apply Permutation_length, sorted_perm. Qed.

Lemma ordered_nth_le s : StronglySorted Rle s ->
  forall i j, (i <= j)%nat -> (j < List.length s)%nat -> nth i s 0 <= nth j s 0.
Proof.
  induction 1 as [|x s Hs IH Hall]; intros i j Hij Hj; [simpl in Hj; lia|].
  destruct i as [|i], j as [|j]; simpl in *.
  - lra.
  - rewrite Forall_forall in Hall. apply Hall. apply nth_In. lia.
  - lia.
  - apply IH; lia.
Qed.

Lemma sorted_nth_In a i :
  (i < List.length a)%nat -> In (nth i (sorted a) 0) a.
Proof.
  intros H. apply (Permutation_in _ (sorted_perm a)).
  apply nth_In. now rewrite sorted_length.
Qed.

(** *** The position in the sorted sample *)

Lemma index_below_spec h :
  0 <= h -> INR (index_below h) <= h /\ h < INR (index_below h) + 1.
Proof.
  intros H0. unfold index_below.
  destruct (base_Int_part h) as [H1 H2].
  assert (Hz : (0 <= Int_part h)%Z).
  { apply Z.lt_succ_r. apply lt_IZR. rewrite succ_IZR. simpl. lra. }
  rewrite INR_IZR_INZ, Z2Nat.id by exact Hz. lra.
Qed.

Lemma index_below_le h1 h2 :
  0 <= h1 -> h1 <= h2 -> (index_below h1 <= index_below h2)%nat.
Proof.
  intros H0 H12.
  destruct (index_below_spec h1 H0) as [A1 _].
  destruct (index_below_spec h2) as [_ B2]; [lra|].
  apply Nat.lt_succ_r. apply INR_lt. rewrite S_INR. lra.
Qed.

Lemma index_below_bound h n : 0 <= h -> h <= INR n -> (index_below h <= n)%nat.
Proof.
  intros H0 Hn. destruct (index_below_spec h H0) as [A _].
  apply INR_le. lra.
Qed.

Lemma rank_range n q : 0 <= q <= 100 -> 0 <= rank n q <= INR (n - 1).
Proof.
  intros Hq. unfold rank. pose proof (pos_INR (n - 1)). split; nra.
Qed.

Lemma rank_le n q1 q2 : q1 <= q2 -> rank n q1 <= rank n q2.
Proof.
  intros Hq. unfold rank. pose proof (pos_INR (n - 1)). nra.
Qed.

Lemma percentile_eq a q :
  a <> [] -> 0 <= q <= 100 ->
  percentile a q =
  let s := sorted a in
  let n := List.length a in
  let h := rank n q in
  let lo := index_below h in
  let hi := Nat.min (lo + 1) (n - 1) in
  Ok (nth lo s 0 + (nth hi s 0 - nth lo s 0) * (h - INR lo)).
Proof.
  intros Ha [H0 H100]. unfold percentile, percentile_args.
  destruct (Rlt_dec q 0); [lra|]. destruct (Rlt_dec 100 q); [lra|].
  destruct a; [congruence | reflexivity].
Qed.

Lemma percentile_Ok_inv a q v :
  percentile a q = Ok v -> a <> [] /\ 0 <= q <= 100.
Proof.
  unfold percentile, percentile_args.
  destruct (Rlt_dec q 0); [discriminate|].
  destruct (Rlt_dec 100 q); [discriminate|].
  destruct a; [discriminate|]. intros _. split; [discriminate | lra].
Qed.

Lemma percentile_neighbours a q :
  a <> [] -> 0 <= q <= 100 ->
  let n := List.length a in
  let lo := index_below (rank n q) in
  let hi := Nat.min (lo + 1) (n - 1) in
  exists v,
    percentile a q = Ok v /\
    (lo <= hi)%nat /\ (hi < n)%nat /\
    nth lo (sorted a) 0 <= v <= nth hi (sorted a) 0.
Proof.
  intros Ha Hq n lo hi.
  assert (Hn : (0 < n)%nat).
  { subst n. destruct a; [congruence | simpl; lia]. }
  destruct (rank_range n q Hq) as [Hh0 Hhn].
  assert (Hlo : (lo <= n - 1)%nat) by (apply index_below_bound; assumption).
  destruct (index_below_spec (rank n q) Hh0) as [Hg0 Hg1].
  fold lo in Hg0, Hg1.
  assert (Hlohi : (lo <= hi)%nat) by (subst hi; lia).
  assert (Hhi : (hi < n)%nat) by (subst hi; lia).
  rewrite (percentile_eq a q Ha Hq). cbv zeta. fold n lo hi.
  eexists. split; [reflexivity|]. split; [exact Hlohi|]. split; [exact Hhi|].
  assert (Hs : nth lo (sorted a) 0 <= nth hi (sorted a) 0).
  { apply ordered_nth_le; [apply sorted_ordered | exact Hlohi |].
    now rewrite sorted_length. }
  split; nra.
Qed.

Lemma percentile_range a q lb ub :
  a <> [] -> 0 <= q <= 100 -> (forall x, In x a -> lb <= x <= ub) ->
  exists v, percentile a q = Ok v /\ lb <= v <= ub.
Proof.
  intros Ha Hq Hb.
  destruct (percentile_neighbours a q Ha Hq) as (v & Hv & Hlohi & Hhi & Hv1 & Hv2).
  exists v. split; [exact Hv|].
  pose proof (Hb _ (sorted_nth_In a _ (Nat.le_lt_trans _ _ _ Hlohi Hhi))).
  pose proof (Hb _ (sorted_nth_In a _ Hhi)). lra.
Qed.

Lemma percentile_le a q1 q2 :
  a <> [] -> 0 <= q1 -> q1 <= q2 -> q2 <= 100 ->
  exists v1 v2,
    percentile a q1 = Ok v1 /\ percentile a q2 = Ok v2 /\ v1 <= v2.
Proof.
  intros Ha H0 H12 H100.
  assert (Hq1 : 0 <= q1 <= 100) by lra. assert (Hq2 : 0 <= q2 <= 100) by lra.
  set (n := List.length a).
  assert (Hn : (0 < n)%nat) by (subst n; destruct a; [congruence | simpl; lia]).
  pose proof (rank_le n q1 q2 H12) as Hh.
  destruct (rank_range n q1 Hq1) as [Hr1 _].
  destruct (rank_range n q2 Hq2) as [Hr2 Hr2n].
  pose proof (index_below_le _ _ Hr1 Hh) as Hlo.
  pose proof (index_below_bound _ _ Hr2 Hr2n) as Hb2.
  destruct (percentile_neighbours a q1 Ha Hq1) as (v1 & Hv1 & _ & _ & _ & Hv1u).
  destruct (percentile_neighbours a q2 Ha Hq2) as (v2 & Hv2 & _ & Hhi2 & Hv2l & _).
  fold n in Hv1u, Hhi2, Hv2l.
  exists v1, v2. split; [exact Hv1|]. split; [exact Hv2|].
  destruct (Nat.eq_dec (index_below (rank n q1)) (index_below (rank n q2))) as [E|E].
  - rewrite (percentile_eq a q1 Ha Hq1) in Hv1.
    rewrite (percentile_eq a q2 Ha Hq2) in Hv2.
    cbv zeta in Hv1, Hv2. fold n in Hv1, Hv2. rewrite E in Hv1.
    injection Hv1 as <-. injection Hv2 as <-.
    assert (Hs : nth (index_below (rank n q2)) (sorted a) 0 <=
                 nth (Nat.min (index_below (rank n q2) + 1) (n - 1)) (sorted a) 0).
    { apply ordered_nth_le; [apply sorted_ordered | lia |].
      rewrite sorted_length. fold n. lia. }
    nra.
  - apply Rle_trans with (1 := Hv1u). apply Rle_trans with (2 := Hv2l).
    apply ordered_nth_le; [apply sorted_ordered | lia |].
    rewrite sorted_length. fold n. lia.
Qed.

(** *** The run *)

(** The potential loss computed from draw [k], for [time_horizon >= 0]. *)
Definition potential_loss (normal : nat -> R)
  (portfolio_value mu sigma time_horizon : R) (k : nat) : R :=
  let simulated_return :=
    mu * time_horizon + sigma * sqrt time_horizon * normal k in
  let simulated_value := portfolio_value * (1 + simulated_return) in
  portfolio_value - simulated_value.

(** What a value at risk that is a number is: a percentile of the
    potential losses. *)
Lemma monte_carlo_var_Some_inv normal V mu sigma T c n VaR :
  monte_carlo_var normal V mu sigma T c n = Ok (Some VaR) ->
  percentile (map (potential_loss normal V mu sigma T) (seq 0 n)) (c * 100) =
  Ok VaR.
Proof.
  unfold monte_carlo_var, np_sqrt, normal_sample.
  destruct (Rlt_dec T 0).
  - destruct (percentile_args n (c * 100)); discriminate.
  - destruct (Rlt_dec (sigma * sqrt T) 0); [discriminate|].
    simpl. rewrite !map_map. fold (potential_loss normal V mu sigma T).
    destruct (percentile _ _) as [v|e]; [|discriminate].
    now intros [= <-].
Qed.

Lemma monte_carlo_var_returns normal V mu sigma T c n :
  0 <= T -> 0 <= sigma -> (0 < n)%nat -> 0 <= c <= 1 ->
  exists VaR, monte_carlo_var normal V mu sigma T c n = Ok (Some VaR).
Proof.
  intros HT Hs Hn Hc. unfold monte_carlo_var, np_sqrt, normal_sample.
  destruct (Rlt_dec T 0); [lra|].
  pose proof (sqrt_pos T).
  destruct (Rlt_dec (sigma * sqrt T) 0); [nra|].
  simpl. rewrite !map_map.
  rewrite percentile_eq; [simpl; eauto | | lra].
  destruct n; [lia | discriminate].
Qed.

(** Every draw is 1. *)
Definition ones : nat -> R := fun _ => 1.

(** X27. A value at risk that is a number lies within every bound on the
    potential losses, so between the least and the greatest of them. *)
Theorem var_within_losses normal V mu sigma T c n VaR lb ub :
  monte_carlo_var normal V mu sigma T c n = Ok (Some VaR) ->
  (forall k, (k < n)%nat -> lb <= potential_loss normal V mu sigma T k <= ub) ->
  lb <= VaR <= ub.
Proof.
  intros H Hb. apply monte_carlo_var_Some_inv in H.
  destruct (percentile_Ok_inv _ _ _ H) as [Hne Hq].
  destruct (percentile_range _ (c * 100) lb ub Hne Hq) as (v & Hv & Hr).
  - intros x Hx. apply in_map_iff in Hx. destruct Hx as (k & <- & Hk).
    apply Hb. apply in_seq in Hk. lia.
  - congruence.
Qed.

Lemma var_within_losses_witness :
  exists VaR,
    monte_carlo_var ones 1000 0 1 1 0.95 5 = Ok (Some VaR) /\
    -1000 <= VaR <= -1000.
Proof.
  destruct (monte_carlo_var_returns ones 1000 0 1 1 0.95 5) as [VaR H];
    [lra | lra | lia | lra |].
  exists VaR. split; [exact H|].
  apply (var_within_losses ones 1000 0 1 1 0.95 5 VaR (-1000) (-1000) H).
  intros k _. unfold potential_loss, ones. rewrite sqrt_1. lra.
Defined.

(** X29. From the same draws the value at risk does not decrease with the
    confidence level: for [c1 <= c2], values at risk at the two levels
    that are numbers are in the same order. *)
Theorem var_monotone_confidence normal V mu sigma T c1 c2 n VaR1 VaR2 :
  c1 <= c2 ->
  monte_carlo_var normal V mu sigma T c1 n = Ok (Some VaR1) ->
  monte_carlo_var normal V mu sigma T c2 n = Ok (Some VaR2) ->
  VaR1 <= VaR2.
Proof.
  intros Hc H1 H2.
  apply monte_carlo_var_Some_inv in H1. apply monte_carlo_var_Some_inv in H2.
  destruct (percentile_Ok_inv _ _ _ H1) as [Hne Hq1].
  destruct (percentile_Ok_inv _ _ _ H2) as [_ Hq2].
  destruct (percentile_le _ (c1 * 100) (c2 * 100) Hne) as (v1 & v2 & Hv1 & Hv2 & Hle);
    [lra | lra | lra |].
  congruence.
Qed.

Lemma var_monotone_confidence_witness :
  exists VaR1 VaR2,
    monte_carlo_var ones 1000 0.07 0.15 1 0.9 5 = Ok (Some VaR1) /\
    monte_carlo_var ones 1000 0.07 0.15 1 0.95 5 = Ok (Some VaR2) /\
    VaR1 <= VaR2.
Proof.
  destruct (monte_carlo_var_returns ones 1000 0.07 0.15 1 0.9 5) as [VaR1 H1];
    [lra | lra | lia | lra |].
  destruct (monte_carlo_var_returns ones 1000 0.07 0.15 1 0.95 5) as [VaR2 H2];
    [lra | lra | lia | lra |].
  exists VaR1, VaR2. split; [exact H1|]. split; [exact H2|].
  apply (var_monotone_confidence ones 1000 0.07 0.15 1 0.9 0.95 5 VaR1 VaR2);
    [lra | exact H1 | exact H2].
Defined.

End ValueAtRisk.
